(** * CopilotKit react-core: chat orchestration and function-call dispatch

    A shallow embedding of

    - [hooks/use-chat.ts] ([useChat]: [append], [reload], [stop] and the
      listeners that [runChatCompletion] attaches to the completion client);
    - the provider component ([setEntryPoint], [removeEntryPoint],
      [entryPointsToFunctionCallHandler],
      [annotatedFunctionToChatCompletionFunction]).

    JavaScript values are modelled with the semantics the code relies on:
    an object is an ordered list of own properties with a prototype, a
    property read falls through to the prototype chain, a property write
    under the key [__proto__] reaches the accessor of [Object.prototype],
    and an array carries its own [length].  The [useState] and [useRef]
    cells of the hook are fields of an explicit state record.  [append]
    and [reload] are closures of a render: they read [messages] and
    [isLoading] as the constants of that render and take the render as
    an argument; [stop] reads the ref, which is always current.  Any
    number of cycles can have their listeners attached. *)

From Stdlib Require Import String Ascii List ZArith NArith Bool Lia DecimalString.
Import ListNotations.

Set Warnings "-register-all".

Open Scope string_scope.
Open Scope list_scope.

(** ** Property keys *)

Definition digit_of (c : ascii) : option N :=
  let n := N_of_ascii c in
  if ((48 <=? n) && (n <=? 57))%N then Some (n - 48)%N else None.

Fixpoint digits_value (s : string) (acc : N) : option N :=
  match s with
  | EmptyString => Some acc
  | String c t =>
      match digit_of c with
      | Some d => digits_value t (10 * acc + d)%N
      | None => None
      end
  end.

(** An array index is a canonical numeric string below 2^32 - 1; own
    properties with such keys are enumerated first, in ascending order. *)
Definition array_index (k : string) : option N :=
  match k with
  | EmptyString => None
  | String c t =>
      if ((c =? "0")%char && negb (t =? EmptyString))%bool then None
      else match digits_value k 0%N with
           | Some n => if (n <? 4294967295)%N then Some n else None
           | None => None
           end
  end.

(** ** Own properties of an ordinary object, in enumeration order *)

Section OwnProperties.

Context {V : Type}.

Definition Props := list (string * V).

Fixpoint own_get (ps : Props) (k : string) : option V :=
  match ps with
  | [] => None
  | (k', v) :: t => if k' =? k then Some v else own_get t k
  end.

Fixpoint own_replace (ps : Props) (k : string) (v : V) : Props :=
  match ps with
  | [] => []
  | (k', v') :: t =>
      if k' =? k then (k, v) :: t else (k', v') :: own_replace t k v
  end.

(** A new array-index key goes before the first key that is not an array
    index or is a larger one. *)
Fixpoint own_insert_index (ps : Props) (n : N) (k : string) (v : V) : Props :=
  match ps with
  | [] => [(k, v)]
  | (k', v') :: t =>
      match array_index k' with
      | Some n' =>
          if (n' <? n)%N then (k', v') :: own_insert_index t n k v
          else (k, v) :: ps
      | None => (k, v) :: ps
      end
  end.

(** [CreateDataProperty]: an existing key keeps its place, a new key is
    created in enumeration order. *)
Definition own_set (ps : Props) (k : string) (v : V) : Props :=
  match own_get ps k with
  | Some _ => own_replace ps k v
  | None =>
      match array_index k with
      | Some n => own_insert_index ps n k v
      | None => ps ++ [(k, v)]
      end
  end.

(** [delete o[k]] *)
Fixpoint own_delete (ps : Props) (k : string) : Props :=
  match ps with
  | [] => []
  | (k', v) :: t => if k' =? k then own_delete t k else (k', v) :: own_delete t k
  end.

(** [Object.values(o)] *)
Definition own_values (ps : Props) : list V := map snd ps.

Definition own_keys (ps : Props) : list string := map fst ps.

End OwnProperties.

Arguments Props V : clear implicits.

(** ** Built-in prototypes *)

Inductive Prototype :=
| ObjectPrototype
| ArrayPrototype
| StringPrototype
| NumberPrototype
| BooleanPrototype.

(** The string-keyed members of the built-in prototypes (ECMA-262, 14th
    edition, with Annex B).  [__proto__] is the accessor of
    [Object.prototype]. *)
Definition prototype_keys (p : Prototype) : list string :=
  match p with
  | ObjectPrototype =>
      ["constructor"; "__defineGetter__"; "__defineSetter__";
       "hasOwnProperty"; "__lookupGetter__"; "__lookupSetter__";
       "isPrototypeOf"; "propertyIsEnumerable"; "toString"; "valueOf";
       "__proto__"; "toLocaleString"]
  | ArrayPrototype =>
      ["length"; "constructor"; "at"; "concat"; "copyWithin"; "fill";
       "find"; "findIndex"; "findLast"; "findLastIndex"; "lastIndexOf";
       "pop"; "push"; "reverse"; "shift"; "unshift"; "slice"; "sort";
       "splice"; "includes"; "indexOf"; "join"; "keys"; "entries";
       "values"; "forEach"; "filter"; "flat"; "flatMap"; "map"; "every";
       "some"; "reduce"; "reduceRight"; "toLocaleString"; "toString";
       "toReversed"; "toSorted"; "toSpliced"; "with"]
  | StringPrototype =>
      ["length"; "constructor"; "anchor"; "at"; "big"; "blink"; "bold";
       "charAt"; "charCodeAt"; "codePointAt"; "concat"; "endsWith";
       "fontcolor"; "fontsize"; "fixed"; "includes"; "indexOf";
       "isWellFormed"; "italics"; "lastIndexOf"; "link"; "localeCompare";
       "match"; "matchAll"; "normalize"; "padEnd"; "padStart"; "repeat";
       "replace"; "replaceAll"; "search"; "slice"; "small"; "split";
       "strike"; "sub"; "substr"; "substring"; "sup"; "startsWith";
       "toString"; "toWellFormed"; "trim"; "trimStart"; "trimLeft";
       "trimEnd"; "trimRight"; "toLocaleLowerCase"; "toLocaleUpperCase";
       "toLowerCase"; "toUpperCase"; "valueOf"]
  | NumberPrototype =>
      ["constructor"; "toExponential"; "toFixed"; "toPrecision";
       "toString"; "valueOf"; "toLocaleString"]
  | BooleanPrototype => ["constructor"; "toString"; "valueOf"]
  end.

Definition mem_string (k : string) (l : list string) : bool :=
  existsb (String.eqb k) l.

(** The first prototype of a chain that has the key. *)
Fixpoint chain_find (chain : list Prototype) (k : string) : option Prototype :=
  match chain with
  | [] => None
  | p :: rest =>
      if mem_string k (prototype_keys p) then Some p else chain_find rest k
  end.

(** ** Values *)

(** What [JSON.parse] can return.  Numbers are only carried around, never
    computed with; integral ones are represented. *)
Inductive JSON :=
| JNull
| JBool (b : bool)
| JNumber (n : Z)
| JString (s : string)
| JArray (elems : list JSON)
| JObject (members : Props JSON).

(** What a property read on such a value can return. *)
Inductive JSValue :=
| Undefined
| OfJSON (j : JSON)
| Inherited (owner : Prototype) (member : string).

Definition inherited_get (chain : list Prototype) (k : string) : JSValue :=
  match chain_find chain k with
  | Some p => Inherited p k
  | None => Undefined
  end.

Fixpoint nth_char (s : string) (n : nat) : option ascii :=
  match s, n with
  | EmptyString, _ => None
  | String c _, O => Some c
  | String _ t, S m => nth_char t m
  end.

(** [o[k]] for a value [o] returned by [JSON.parse] or an array literal;
    [None] is the [TypeError] raised for [null]. *)
Definition js_get (o : JSON) (k : string) : option JSValue :=
  match o with
  | JNull => None
  | JBool _ => Some (inherited_get [BooleanPrototype; ObjectPrototype] k)
  | JNumber _ => Some (inherited_get [NumberPrototype; ObjectPrototype] k)
  | JString s =>
      if k =? "length" then Some (OfJSON (JNumber (Z.of_nat (String.length s))))
      else
        match array_index k with
        | Some i =>
            match nth_char s (N.to_nat i) with
            | Some c => Some (OfJSON (JString (String c EmptyString)))
            | None => Some (inherited_get [StringPrototype; ObjectPrototype] k)
            end
        | None => Some (inherited_get [StringPrototype; ObjectPrototype] k)
        end
  | JArray elems =>
      if k =? "length" then Some (OfJSON (JNumber (Z.of_nat (List.length elems))))
      else
        match array_index k with
        | Some i =>
            match nth_error elems (N.to_nat i) with
            | Some v => Some (OfJSON v)
            | None => Some (inherited_get [ArrayPrototype; ObjectPrototype] k)
            end
        | None => Some (inherited_get [ArrayPrototype; ObjectPrototype] k)
        end
  | JObject members =>
      match own_get members k with
      | Some v => Some (OfJSON v)
      | None => Some (inherited_get [ObjectPrototype] k)
      end
  end.

(** ** Ordinary objects filled by assignment *)

(** An object created by the literal [{}] and filled by [o[k] = v].  Its
    prototype is [Object.prototype] until an assignment under the key
    [__proto__] reaches the accessor of [Object.prototype], which installs
    the assigned object as prototype instead of creating an own property.
    The stored values are themselves ordinary objects; [has_own] tells
    their own keys. *)
Section PlainObject.

Context {V : Type}.
Variable has_own : V -> string -> bool.

Record PlainObject := {
  own : Props V;
  proto : option V
}.

Definition empty_object : PlainObject := {| own := []; proto := None |}.

(** Whether a data property with key [k] is found before
    [Object.prototype] is reached. *)
Definition shadows (o : PlainObject) (k : string) : bool :=
  match own_get (own o) k with
  | Some _ => true
  | None => match proto o with
            | Some p => has_own p k
            | None => false
            end
  end.

(** [o[k] = v].  An inherited data property does not stop the write: an
    own property is created.  The accessor [__proto__] does. *)
Definition obj_assign (o : PlainObject) (k : string) (v : V) : PlainObject :=
  if ((k =? "__proto__") && negb (shadows o k))%bool
  then {| own := own o; proto := Some v |}
  else {| own := own_set (own o) k v; proto := proto o |}.

(** What [o[k]] finds: an own property; an own property of the object
    installed as prototype; that object itself, through the accessor
    [__proto__]; a member of [Object.prototype]; or nothing
    ([undefined]). *)
Inductive Lookup :=
| Own (v : V)
| ProtoMember (p : V) (k : string)
| ProtoItself (p : V)
| Builtin (k : string)
| Missing.

(** [o[k]] *)
Definition obj_get (o : PlainObject) (k : string) : Lookup :=
  match own_get (own o) k with
  | Some v => Own v
  | None =>
      match proto o with
      | Some p =>
          if has_own p k then ProtoMember p k
          else if k =? "__proto__" then ProtoItself p
          else if mem_string k (prototype_keys ObjectPrototype) then Builtin k
          else Missing
      | None =>
          if mem_string k (prototype_keys ObjectPrototype) then Builtin k
          else Missing
      end
  end.

End PlainObject.

Arguments PlainObject V : clear implicits.
Arguments Lookup V : clear implicits.
Arguments empty_object {V}.
Arguments Missing {V}.
Arguments Builtin {V} k.

(** ** Messages and entry points *)

Inductive ErrorValue :=
| DOMException (message name : string)
| SyntaxError
| TypeError
| Thrown (cause : string).

Inductive Settled :=
| Fulfilled
| Rejected (e : ErrorValue).

(** Modelled from the spec: the type declarations of [../types]
    ([Message], [FunctionCall]) are not part of the sources; section 3 of
    the specification gives their fields. *)
Record FunctionCall := {
  fc_name : option string;
  fc_arguments : option string
}.

Inductive Role := system | user | assistant | function.

Record Message := {
  id : string;
  createdAt : option Z;
  content : string;
  role : Role;
  function_call : option FunctionCall
}.

Definition role_eqb (a b : Role) : bool :=
  match a, b with
  | system, system | user, user | assistant, assistant | function, function => true
  | _, _ => false
  end.

(** Modelled from the spec: the type declarations of
    [types/annotated-function] are not part of the sources.  An argument
    annotation has a [name], a [required] flag and further own properties
    (the schema fragment), kept in [forwardedArgs]. *)
Record ArgumentAnnotation := {
  arg_name : string;
  arg_required : bool;
  forwardedArgs : Props JSON
}.

(** [implementation] returns the error it throws or rejects with, if any. *)
Record AnnotatedFunction := {
  af_name : string;
  af_description : string;
  argumentAnnotations : list ArgumentAnnotation;
  implementation : list JSValue -> option ErrorValue
}.

Definition entry_point_has_own (_ : AnnotatedFunction) (k : string) : bool :=
  mem_string k ["name"; "description"; "argumentAnnotations"; "implementation"].

Definition forwarded_has_own (fa : Props JSON) (k : string) : bool :=
  match own_get fa k with Some _ => true | None => false end.

(** The built-ins of the runtime the code calls. [JSON_parse] returns
    [None] when it throws. *)
Record Runtime := {
  JSON_parse : string -> option JSON;
  JSON_stringify : JSON -> string
}.

(** ** The entry-point registry of the provider *)

Definition EntryPoints := Props AnnotatedFunction.

(** [setEntryPoint] (provider, lines 64-71):
    [{ ...prevPoints, [id]: entryPoint }].  The spread copies the own
    properties in order; the computed key defines an own property. *)
Definition setEntryPoint (id : string) (entryPoint : AnnotatedFunction)
    (prevPoints : EntryPoints) : EntryPoints :=
  own_set prevPoints id entryPoint.

(** [removeEntryPoint] (provider, lines 73-79): [{ ...prevPoints }]
    followed by [delete newPoints[id]]. *)
Definition removeEntryPoint (id : string) (prevPoints : EntryPoints) : EntryPoints :=
  own_delete prevPoints id.

(** ** Function-call dispatch *)

Record Invocation := {
  callee : AnnotatedFunction;
  actuals : list JSValue
}.

(** What one run of the handler did: the texts handed to [JSON.parse],
    the implementations invoked, and how the returned promise settled. *)
Record HandlerRun := {
  parses : list string;
  invoked : list Invocation;
  settled : Settled
}.

(** The value found under the called name, as the handler uses it: an
    entry point; another truthy value, which has no
    [argumentAnnotations]; or a falsy value ([undefined], or an empty
    string). *)
Inductive Resolved :=
| EntryPoint (ep : AnnotatedFunction)
| Foreign
| Falsy.

Definition truthy_string (s : string) : bool := negb (s =? EmptyString).

Definition resolve (l : Lookup AnnotatedFunction) : Resolved :=
  match l with
  | Own ep => EntryPoint ep
  | ProtoItself p => EntryPoint p
  | ProtoMember p k =>
      if k =? "name" then (if truthy_string (af_name p) then Foreign else Falsy)
      else if k =? "description"
           then (if truthy_string (af_description p) then Foreign else Falsy)
      else Foreign
  | Builtin _ => Foreign
  | Missing => Falsy
  end.

(** The loop that pushes [functionCallArguments[arg.name]] for every
    annotation; [None] when a property read throws. *)
Fixpoint paramsInCorrectOrder (functionCallArguments : JSON)
    (annotations : list ArgumentAnnotation) : option (list JSValue) :=
  match annotations with
  | [] => Some []
  | arg :: rest =>
      match js_get functionCallArguments (arg_name arg) with
      | None => None
      | Some v =>
          match paramsInCorrectOrder functionCallArguments rest with
          | None => None
          | Some vs => Some (v :: vs)
          end
      end
  end.

(** The table built at lines 184-187: an object literal filled by
    assignment under the names of the entry points. *)
Definition entrypointsByFunctionName (entryPoints : list AnnotatedFunction)
    : PlainObject AnnotatedFunction :=
  fold_left (fun table entryPoint =>
               obj_assign entry_point_has_own table (af_name entryPoint) entryPoint)
            entryPoints empty_object.

(** [functionCall.name || ""] *)
Definition called_name (functionCall : FunctionCall) : string :=
  match fc_name functionCall with
  | Some n => n
  | None => EmptyString
  end.

(** [entryPointsToFunctionCallHandler] (provider, lines 180-224).  The
    guard [if (entryPointFunction)] passes for every truthy value found
    under the name; the default of [functionCallArguments] is the empty
    array; the text is parsed when it is truthy. *)
Definition entryPointsToFunctionCallHandler (rt : Runtime)
    (entryPoints : list AnnotatedFunction)
    (chatMessages : list Message) (functionCall : FunctionCall) : HandlerRun :=
  let table := entrypointsByFunctionName entryPoints in
  match resolve (obj_get entry_point_has_own table (called_name functionCall)) with
  | Falsy => {| parses := []; invoked := []; settled := Fulfilled |}
  | entryPointFunction =>
      let text :=
        match fc_arguments functionCall with
        | Some a => if truthy_string a then Some a else None
        | None => None
        end in
      let parsed :=
        match text with
        | Some a => JSON_parse rt a
        | None => Some (JArray [])
        end in
      let parses := match text with Some a => [a] | None => [] end in
      match parsed with
      | None => {| parses := parses; invoked := []; settled := Rejected SyntaxError |}
      | Some functionCallArguments =>
          match entryPointFunction with
          | EntryPoint ep =>
              match paramsInCorrectOrder functionCallArguments
                      (argumentAnnotations ep) with
              | None =>
                  {| parses := parses; invoked := []; settled := Rejected TypeError |}
              | Some params =>
                  {| parses := parses;
                     invoked := [{| callee := ep; actuals := params |}];
                     settled := match implementation ep params with
                                | Some e => Rejected e
                                | None => Fulfilled
                                end |}
              end
          | _ =>
              (* [entryPointFunction.argumentAnnotations] is [undefined]:
                 the [for ... of] over it throws *)
              {| parses := parses; invoked := []; settled := Rejected TypeError |}
          end
      end
  end.

(** ** Schema compilation *)

Record FunctionParameters := {
  type : string;
  properties : PlainObject (Props JSON);
  required : list string
}.

Record ChatCompletionFunction := {
  name : string;
  description : string;
  parameters : FunctionParameters
}.

(** [annotatedFunctionToChatCompletionFunction] (provider, lines
    232-262): the two loops over the annotations, then the schema. *)
Definition annotatedFunctionToChatCompletionFunction
    (annotatedFunction : AnnotatedFunction) : ChatCompletionFunction :=
  let parameters :=
    fold_left (fun parameters arg =>
                 obj_assign forwarded_has_own parameters (arg_name arg) (forwardedArgs arg))
              (argumentAnnotations annotatedFunction) empty_object in
  let requiredParameterNames :=
    fold_left (fun names arg =>
                 if arg_required arg then names ++ [arg_name arg] else names)
              (argumentAnnotations annotatedFunction) [] in
  {| name := af_name annotatedFunction;
     description := af_description annotatedFunction;
     parameters := {| type := "object";
                      properties := parameters;
                      required := requiredParameterNames |} |}.

Definition entryPointsToChatCompletionFunctions
    (entryPoints : list AnnotatedFunction) : list ChatCompletionFunction :=
  map annotatedFunctionToChatCompletionFunction entryPoints.

Definition getChatCompletionFunctionDescriptions (entryPoints : EntryPoints)
    : list ChatCompletionFunction :=
  entryPointsToChatCompletionFunctions (own_values entryPoints).

Definition getFunctionCallHandler (rt : Runtime) (entryPoints : EntryPoints)
    : list Message -> FunctionCall -> HandlerRun :=
  entryPointsToFunctionCallHandler rt (own_values entryPoints).

(** ** The chat hook *)

(** Modelled from the spec: [ChatCompletionClient]
    ([openai/chat-completion-client]) is not part of the sources; these
    are the events its listeners receive ([content], [function], [end],
    [error]). *)
Inductive ClientEvent :=
| ContentEvent (content : string)
| FunctionEvent (name : string) (arguments : JSON)
| EndEvent
| ErrorEvent (error : ErrorValue).

(** The options the hook reads.  [headers] and [copilotConfig] are handed
    to [client.fetch] untouched and are left out. *)
Record UseChatOptions := {
  initialMessages : option (list Message);
  onFunctionCall : option (list Message -> FunctionCall -> HandlerRun);
  functions : option (list ChatCompletionFunction)
}.

(** The arguments of one [client.fetch] call. *)
Record FetchParams := {
  fetch_messages : list Message;
  fetch_functions : option (list ChatCompletionFunction);
  fetch_signal : nat
}.

(** The closure of one run of [runChatCompletion]: its [messages]
    parameter, the [assistantMessage] it mutates, and its
    [AbortController], which also identifies the client it created. *)
Record Cycle := {
  cycle_messages : list Message;
  assistantMessage : Message;
  abortController : nat
}.

(** What one render of the hook hands to the closures it creates (lines
    84-86): the values the [useState] cells had at that render.  [append]
    and [reload] read [messages] and [isLoading] as these constants;
    [setMessages] and [setIsLoading] write the cells, which a later
    render reads. *)
Record Render := {
  rendered_messages : list Message;
  rendered_isLoading : bool
}.

(** The hook between two calls: the [useState] cells (the values last
    written), the [useRef] cell (read and written at once), the cycles
    whose client listeners are attached, the latest first, the [fetch]
    calls made so far and the number of controllers created so far. *)
Record Chat := {
  messages : list Message;
  isLoading : bool;
  abortControllerRef : option nat;
  listening : list Cycle;
  fetched : list FetchParams;
  created : nat
}.

Definition initial : Chat :=
  {| messages := []; isLoading := false; abortControllerRef := None;
     listening := []; fetched := []; created := 0 |}.

(** A render of the hook in state [s]. *)
Definition render (s : Chat) : Render :=
  {| rendered_messages := messages s; rendered_isLoading := isLoading s |}.

(** The values [nanoid()] and [new Date()] return in one cycle. *)
Record Fresh := {
  nanoid : string;
  now : Z
}.

Inductive CycleOutcome :=
| CycleResolved (message : Message)
| CycleRejected (e : ErrorValue).

(** How a cycle ended: the settlement of the promise of
    [runChatCompletion], and the run of the continuation in
    [runChatCompletionAndHandleFunctionCall], whose [settled] field is the
    settlement of the promise [append] or [reload] returned. *)
Record Completion := {
  cycle_outcome : CycleOutcome;
  turn : HandlerRun
}.

(** What a call of [append] or [reload] returned: an already fulfilled
    promise, or the pending promise of a started cycle. *)
Inductive Returned :=
| ReturnedEarly
| Pending.

Definition setMessages (ms : list Message) (s : Chat) : Chat :=
  {| messages := ms; isLoading := isLoading s;
     abortControllerRef := abortControllerRef s; listening := listening s;
     fetched := fetched s; created := created s |}.

Definition setIsLoading (b : bool) (s : Chat) : Chat :=
  {| messages := messages s; isLoading := b;
     abortControllerRef := abortControllerRef s; listening := listening s;
     fetched := fetched s; created := created s |}.

(** Whether a cycle is the one of a client. *)
Definition attached (client : nat) (c : Cycle) : bool :=
  (abortController c =? client)%nat.

(** The cycle whose listeners a client's events reach, if they are still
    attached. *)
Definition cycle_of (client : nat) (s : Chat) : option Cycle :=
  find (attached client) (listening s).

Definition detach (client : nat) (cycles : list Cycle) : list Cycle :=
  filter (fun c => negb (attached client c)) cycles.

(** [cleanup] of the cycle of a client (use-chat.ts, lines 110-117):
    [client.off] for the four events, which detaches the listeners of
    that client, and [abortControllerRef.current = undefined]. *)
Definition cleanup (client : nat) (s : Chat) : Chat :=
  {| messages := messages s; isLoading := isLoading s;
     abortControllerRef := None; listening := detach client (listening s);
     fetched := fetched s; created := created s |}.

(** The closure of a cycle after its [assistantMessage] was mutated. *)
Definition set_listening (c : Cycle) (s : Chat) : Chat :=
  {| messages := messages s; isLoading := isLoading s;
     abortControllerRef := abortControllerRef s;
     listening := map (fun c' => if attached (abortController c) c' then c else c')
                      (listening s);
     fetched := fetched s; created := created s |}.

Definition with_content (m : Message) (text : string) : Message :=
  {| id := id m; createdAt := createdAt m; content := text; role := role m;
     function_call := function_call m |}.

Definition with_function_call (m : Message) (fc : FunctionCall) : Message :=
  {| id := id m; createdAt := createdAt m; content := content m; role := role m;
     function_call := Some fc |}.

Definition blank_assistant (env : Fresh) : Message :=
  {| id := nanoid env; createdAt := Some (now env); content := EmptyString;
     role := assistant; function_call := None |}.

Definition messagesWithContext (options : UseChatOptions) (ms : list Message)
    : list Message :=
  match initialMessages options with
  | Some init => init ++ ms
  | None => ms
  end.

(** The rejection value of an aborted cycle. *)
Definition AbortError : ErrorValue := DOMException "Aborted" "AbortError".

Section UseChat.

(** [options] is the argument of the hook, taken to be the same at every
    render. *)
Variable rt : Runtime.
Variable options : UseChatOptions.

(** [runChatCompletion] (use-chat.ts, lines 89-162): the synchronous
    part of the promise executor.  It writes the in-flight flag, creates
    the controller and puts it in the ref, creates the blank assistant
    message, publishes the list, attaches the listeners of the new
    client and calls [client.fetch].  Listeners of earlier clients stay
    attached. *)
Definition runChatCompletion (env : Fresh) (ms : list Message) (s : Chat) : Chat :=
  let controller := created s in
  let assistantMessage := blank_assistant env in
  {| messages := ms ++ [assistantMessage];
     isLoading := true;
     abortControllerRef := Some controller;
     listening := {| cycle_messages := ms;
                     assistantMessage := assistantMessage;
                     abortController := controller |} :: listening s;
     fetched := fetched s ++
                [{| fetch_messages := messagesWithContext options ms;
                    fetch_functions := functions options;
                    fetch_signal := controller |}];
     created := S (created s) |}.

(** [runChatCompletionAndHandleFunctionCall] (lines 164-169): what
    follows [await runChatCompletion(messages)]. *)
Definition handleFunctionCall (ms : list Message) (o : CycleOutcome) : HandlerRun :=
  match o with
  | CycleRejected e => {| parses := []; invoked := []; settled := Rejected e |}
  | CycleResolved message =>
      match function_call message, onFunctionCall options with
      | Some fc, Some handler => handler ms fc
      | _, _ => {| parses := []; invoked := []; settled := Fulfilled |}
      end
  end.

Definition complete (c : Cycle) (o : CycleOutcome) : Completion :=
  {| cycle_outcome := o; turn := handleFunctionCall (cycle_messages c) o |}.

(** [append] (lines 171-178), as created by the render [r]: the guard
    and the history are the constants of that render. *)
Definition append (r : Render) (env : Fresh) (message : Message) (s : Chat)
    : Chat * Returned :=
  if rendered_isLoading r then (s, ReturnedEarly)
  else
    let newMessages := rendered_messages r ++ [message] in
    (runChatCompletion env newMessages (setMessages newMessages s), Pending).

(** [reload] (lines 180-193), as created by the render [r]. *)
Definition reload (r : Render) (env : Fresh) (s : Chat) : Chat * Returned :=
  if (rendered_isLoading r
      || (List.length (rendered_messages r) =? 0)%nat)%bool
  then (s, ReturnedEarly)
  else
    let newMessages :=
      match nth_error (rendered_messages r)
                      (List.length (rendered_messages r) - 1) with
      | Some lastMessage =>
          if role_eqb (role lastMessage) assistant
          then firstn (List.length (rendered_messages r) - 1)
                      (rendered_messages r)
          else rendered_messages r
      | None => rendered_messages r
      end in
    (runChatCompletion env newMessages (setMessages newMessages s), Pending).

(** The listener of the [abort] event of a cycle (lines 119-123). *)
Definition on_abort (c : Cycle) (s : Chat) : Chat * option Completion :=
  (cleanup (abortController c) (setIsLoading false s),
   Some (complete c (CycleRejected AbortError))).

(** [stop] (lines 195-197): [abortControllerRef.current?.abort()].  The
    controller the ref holds fires the [abort] listener of its cycle;
    when that cycle has ended already, the listener finds its promise
    settled. *)
Definition stop (s : Chat) : Chat * option Completion :=
  match abortControllerRef s with
  | Some controller =>
      match cycle_of controller s with
      | Some c => on_abort c s
      | None => (cleanup controller (setIsLoading false s), None)
      end
  | None => (s, None)
  end.

(** The four client listeners of a cycle (lines 125-152). *)
Definition on_event (c : Cycle) (ev : ClientEvent) (s : Chat)
    : Chat * option Completion :=
  match ev with
  | ContentEvent text =>
      let m := with_content (assistantMessage c)
                 (content (assistantMessage c) ++ text) in
      (set_listening {| cycle_messages := cycle_messages c;
                        assistantMessage := m;
                        abortController := abortController c |}
         (setMessages (cycle_messages c ++ [m]) s),
       None)
  | EndEvent =>
      (cleanup (abortController c) (setIsLoading false s),
       Some (complete c (CycleResolved (assistantMessage c))))
  | ErrorEvent error =>
      (cleanup (abortController c) (setIsLoading false s),
       Some (complete c (CycleRejected error)))
  | FunctionEvent fname arguments =>
      let m := with_function_call (assistantMessage c)
                 {| fc_name := Some fname;
                    fc_arguments := Some (JSON_stringify rt arguments) |} in
      (cleanup (abortController c)
         (setIsLoading false (setMessages (cycle_messages c ++ [m]) s)),
       Some (complete c (CycleResolved m)))
  end.

(** An event emitted by a client: it reaches the listeners of its cycle
    while they are attached, and nobody otherwise. *)
Definition deliver (client : nat) (ev : ClientEvent) (s : Chat)
    : Chat * option Completion :=
  match cycle_of client s with
  | Some c => on_event c ev s
  | None => (s, None)
  end.

(** A run of events of one client; the completion is that of the event
    that ended the cycle, if any did. *)
Fixpoint deliver_all (client : nat) (evs : list ClientEvent) (s : Chat)
    : Chat * option Completion :=
  match evs with
  | [] => (s, None)
  | ev :: rest =>
      match deliver client ev s with
      | (s', Some done) => (fst (deliver_all client rest s'), Some done)
      | (s', None) => deliver_all client rest s'
      end
  end.

(** What the collaborators of the hook can do to it.  A call of [append]
    or [reload] comes with the render whose closure is called; that
    render is left free, so what holds of the reachable states holds
    whichever renders happened and whichever closures the callers
    kept. *)
Inductive Action :=
| DoAppend (r : Render) (env : Fresh) (message : Message)
| DoReload (r : Render) (env : Fresh)
| DoStop
| DoDeliver (client : nat) (ev : ClientEvent).

Definition step (a : Action) (s : Chat) : Chat :=
  match a with
  | DoAppend r env message => fst (append r env message s)
  | DoReload r env => fst (reload r env s)
  | DoStop => fst (stop s)
  | DoDeliver client ev => fst (deliver client ev s)
  end.

Inductive reachable : Chat -> Prop :=
| reachable_initial : reachable initial
| reachable_step : forall a s, reachable s -> reachable (step a s).

(** A run of actions, first to last. *)
Definition run (actions : list Action) (s : Chat) : Chat :=
  fold_left (fun s a => step a s) actions s.

(** The states reached when every call of [append] and [reload] is made
    through the closures of a render of the state it meets: React has
    rendered again since the last change. *)
Inductive reachable_rendered : Chat -> Prop :=
| rendered_initial : reachable_rendered initial
| rendered_append : forall env message s,
    reachable_rendered s ->
    reachable_rendered (fst (append (render s) env message s))
| rendered_reload : forall env s,
    reachable_rendered s -> reachable_rendered (fst (reload (render s) env s))
| rendered_stop : forall s,
    reachable_rendered s -> reachable_rendered (fst (stop s))
| rendered_deliver : forall client ev s,
    reachable_rendered s -> reachable_rendered (fst (deliver client ev s)).

End UseChat.

(** Reading a member of a parsed object: an own member, else what
    [Object.prototype] provides under that name, else [undefined]. *)
Definition member_of (members : Props JSON) (k : string) : JSValue :=
  match own_get members k with
  | Some v => OfJSON v
  | None => inherited_get [ObjectPrototype] k
  end.

(** Reading a property of the empty array [[]]. *)
Definition member_of_empty_array (k : string) : JSValue :=
  if k =? "length" then OfJSON (JNumber 0)
  else inherited_get [ArrayPrototype; ObjectPrototype] k.

(** What every reachable state keeps: the attached cycles have
    controllers of their own, created before, and assistant messages
    with the role [assistant] and no function call; the flag is set
    exactly while the ref is; and the controller in the ref is the last
    one created, of a cycle that is attached. *)
Definition well_formed (s : Chat) : Prop :=
  NoDup (map abortController (listening s)) /\
  (forall c, In c (listening s) ->
     abortController c < created s /\
     role (assistantMessage c) = assistant /\
     function_call (assistantMessage c) = None) /\
  match abortControllerRef s with
  | Some k =>
      isLoading s = true /\ S k = created s /\
      exists c, cycle_of k s = Some c
  | None => isLoading s = false
  end.

(** The cycle of controller [k] has been created and its listeners are
    detached. *)
Definition ended (k : nat) (s : Chat) : Prop :=
  k < created s /\ cycle_of k s = None.

(** At most one cycle is attached, and the cells are those it wrote. *)
Definition single_flight (s : Chat) : Prop :=
  match listening s with
  | [] => isLoading s = false /\ abortControllerRef s = None
  | [c] =>
      isLoading s = true /\
      abortControllerRef s = Some (abortController c) /\
      messages s = cycle_messages c ++ [assistantMessage c]
  | _ :: _ :: _ => False
  end.

(** The last annotation, and the last entry point, of a given name. *)
Fixpoint last_annotation (k : string) (annotations : list ArgumentAnnotation)
    : option ArgumentAnnotation :=
  match annotations with
  | [] => None
  | a :: rest =>
      match last_annotation k rest with
      | Some b => Some b
      | None => if arg_name a =? k then Some a else None
      end
  end.

Fixpoint last_entry (k : string) (entryPoints : list AnnotatedFunction)
    : option AnnotatedFunction :=
  match entryPoints with
  | [] => None
  | ep :: rest =>
      match last_entry k rest with
      | Some ep' => Some ep'
      | None => if af_name ep =? k then Some ep else None
      end
  end.

(** The payloads of a run of content frames, joined in arrival order. *)
Definition concatenation (frames : list string) : string :=
  fold_right String.append EmptyString frames.

(** ** A reference runtime *)

(** A reader and a writer for the JSON texts used below: objects, arrays,
    strings with the two-character escapes, integers and the three
    literals.  Fractions, exponents and [\u] escapes are not read. *)

Definition dquote : ascii := ascii_of_nat 34.
Definition quoted (s : string) : string :=
  String dquote s ++ String dquote EmptyString.

Definition is_space (c : ascii) : bool :=
  let n := nat_of_ascii c in
  ((n =? 32) || (n =? 9) || (n =? 10) || (n =? 13))%nat.

Fixpoint skip_ws (s : string) : string :=
  match s with
  | String c t => if is_space c then skip_ws t else s
  | EmptyString => s
  end.

Definition unescape (c : ascii) : option ascii :=
  if (c =? dquote)%char then Some dquote
  else if (c =? "\")%char then Some "\"%char
  else if (c =? "/")%char then Some "/"%char
  else if (c =? "b")%char then Some (ascii_of_nat 8)
  else if (c =? "f")%char then Some (ascii_of_nat 12)
  else if (c =? "n")%char then Some (ascii_of_nat 10)
  else if (c =? "r")%char then Some (ascii_of_nat 13)
  else if (c =? "t")%char then Some (ascii_of_nat 9)
  else None.

(** The text after an opening quote: the decoded string and the rest. *)
Fixpoint read_string (s : string) : option (string * string) :=
  match s with
  | EmptyString => None
  | String c t =>
      if (c =? dquote)%char then Some (EmptyString, t)
      else if (c =? "\")%char then
        match t with
        | String e t' =>
            match unescape e, read_string t' with
            | Some d, Some (r, rest) => Some (String d r, rest)
            | _, _ => None
            end
        | EmptyString => None
        end
      else if (nat_of_ascii c <? 32)%nat then None
      else match read_string t with
           | Some (r, rest) => Some (String c r, rest)
           | None => None
           end
  end.

Fixpoint take_digits (s : string) : string * string :=
  match s with
  | String c t =>
      match digit_of c with
      | Some _ => let (d, rest) := take_digits t in (String c d, rest)
      | None => (EmptyString, s)
      end
  | EmptyString => (EmptyString, s)
  end.

Definition starts_fraction (s : string) : bool :=
  match s with
  | String c _ => ((c =? ".")%char || (c =? "e")%char || (c =? "E")%char)%bool
  | EmptyString => false
  end.

Definition read_natural (s : string) : option (N * string) :=
  let (d, rest) := take_digits s in
  if starts_fraction rest then None
  else match d with
       | EmptyString => None
       | String c t =>
           if ((c =? "0")%char && negb (t =? EmptyString))%bool then None
           else match digits_value d 0%N with
                | Some n => Some (n, rest)
                | None => None
                end
       end.

Definition read_literal (lit : string) (v : JSON) (s : string)
    : option (JSON * string) :=
  if String.prefix lit s
  then Some (v, substring (String.length lit)
                          (String.length s - String.length lit) s)
  else None.

Definition object_of (ms : list (string * JSON)) : JSON :=
  JObject (fold_left (fun o kv => own_set o (fst kv) (snd kv)) ms []).

Fixpoint read_value (fuel : nat) (s : string) : option (JSON * string) :=
  match fuel with
  | O => None
  | S f =>
      match skip_ws s with
      | EmptyString => None
      | String c t =>
          if (c =? "{")%char then
            match skip_ws t with
            | String "}"%char rest => Some (JObject [], rest)
            | _ => match read_members f t with
                   | Some (ms, rest) => Some (object_of ms, rest)
                   | None => None
                   end
            end
          else if (c =? "[")%char then
            match skip_ws t with
            | String "]"%char rest => Some (JArray [], rest)
            | _ => match read_elements f t with
                   | Some (vs, rest) => Some (JArray vs, rest)
                   | None => None
                   end
            end
          else if (c =? dquote)%char then
            match read_string t with
            | Some (str, rest) => Some (JString str, rest)
            | None => None
            end
          else if (c =? "-")%char then
            match read_natural t with
            | Some (n, rest) => Some (JNumber (- Z.of_N n), rest)
            | None => None
            end
          else if (c =? "t")%char then read_literal "true" (JBool true) (String c t)
          else if (c =? "f")%char then read_literal "false" (JBool false) (String c t)
          else if (c =? "n")%char then read_literal "null" JNull (String c t)
          else match read_natural (String c t) with
               | Some (n, rest) => Some (JNumber (Z.of_N n), rest)
               | None => None
               end
      end
  end

with read_elements (fuel : nat) (s : string) : option (list JSON * string) :=
  match fuel with
  | O => None
  | S f =>
      match read_value f s with
      | Some (v, rest) =>
          match skip_ws rest with
          | String ","%char rest' =>
              match read_elements f rest' with
              | Some (vs, rest'') => Some (v :: vs, rest'')
              | None => None
              end
          | String "]"%char rest' => Some ([v], rest')
          | _ => None
          end
      | None => None
      end
  end

with read_members (fuel : nat) (s : string)
    : option (list (string * JSON) * string) :=
  match fuel with
  | O => None
  | S f =>
      match skip_ws s with
      | String c t =>
          if (c =? dquote)%char then
            match read_string t with
            | Some (k, rest) =>
                match skip_ws rest with
                | String ":"%char rest' =>
                    match read_value f rest' with
                    | Some (v, rest'') =>
                        match skip_ws rest'' with
                        | String ","%char r =>
                            match read_members f r with
                            | Some (ms, r') => Some ((k, v) :: ms, r')
                            | None => None
                            end
                        | String "}"%char r => Some ([(k, v)], r)
                        | _ => None
                        end
                    | None => None
                    end
                | _ => None
                end
            | None => None
            end
          else None
      | EmptyString => None
      end
  end.

Definition reference_parse (text : string) : option JSON :=
  match read_value (2 * String.length text + 2) text with
  | Some (v, rest) =>
      match skip_ws rest with
      | EmptyString => Some v
      | _ => None
      end
  | None => None
  end.

Definition hex_digit (n : nat) : ascii :=
  match nth_char "0123456789abcdef" n with
  | Some c => c
  | None => "0"%char
  end.

Definition write_char (c : ascii) : string :=
  let n := nat_of_ascii c in
  if (c =? dquote)%char then String "\"%char (String dquote EmptyString)
  else if (c =? "\")%char then "\\"
  else if (n =? 8)%nat then "\b"
  else if (n =? 12)%nat then "\f"
  else if (n =? 10)%nat then "\n"
  else if (n =? 13)%nat then "\r"
  else if (n =? 9)%nat then "\t"
  else if (n <? 32)%nat
       then ("\u00" ++ String (hex_digit (n / 16))
                               (String (hex_digit (n mod 16)) EmptyString))%string
  else String c EmptyString.

Fixpoint write_chars (s : string) : string :=
  match s with
  | EmptyString => EmptyString
  | String c t => (write_char c ++ write_chars t)%string
  end.

Fixpoint reference_stringify (j : JSON) : string :=
  match j with
  | JNull => "null"
  | JBool true => "true"
  | JBool false => "false"
  | JNumber n => NilZero.string_of_int (Z.to_int n)
  | JString s => quoted (write_chars s)
  | JArray elems =>
      let items :=
        fix items (l : list JSON) : string :=
          match l with
          | [] => EmptyString
          | x :: r =>
              match r with
              | [] => reference_stringify x
              | _ => (reference_stringify x ++ "," ++ items r)%string
              end
          end in
      ("[" ++ items elems ++ "]")%string
  | JObject members =>
      let fields :=
        fix fields (l : list (string * JSON)) : string :=
          match l with
          | [] => EmptyString
          | (k, x) :: r =>
              let field :=
                (quoted (write_chars k) ++ ":" ++ reference_stringify x)%string in
              match r with
              | [] => field
              | _ => (field ++ "," ++ fields r)%string
              end
          end in
      ("{" ++ fields members ++ "}")%string
  end.

Definition reference_runtime : Runtime :=
  {| JSON_parse := reference_parse; JSON_stringify := reference_stringify |}.

(** ** Sample data *)

(** An implementation that completes normally. *)
Definition quiet : list JSValue -> option ErrorValue := fun _ => None.

Definition string_argument (n : string) (req : bool) : ArgumentAnnotation :=
  {| arg_name := n; arg_required := req;
     forwardedArgs := [("type", JString "string")] |}.

Definition getWeather : AnnotatedFunction :=
  {| af_name := "getWeather";
     af_description := "Weather of a city";
     argumentAnnotations := [string_argument "city" true;
                             string_argument "units" false];
     implementation := quiet |}.

(** The text [{"units":"celsius","city":"Paris"}]. *)
Definition paris_arguments : string :=
  "{" ++ quoted "units" ++ ":" ++ quoted "celsius" ++ ","
      ++ quoted "city" ++ ":" ++ quoted "Paris" ++ "}".

Definition hi : Message :=
  {| id := "m1"; createdAt := Some 0%Z; content := "hi"; role := user;
     function_call := None |}.

Definition fresh1 : Fresh := {| nanoid := "a1"; now := 1%Z |}.

Definition no_options : UseChatOptions :=
  {| initialMessages := None; onFunctionCall := None; functions := None |}.

(** [addTeam(constructor, driver)]; the text [{"driver":"Senna"}] leaves
    [constructor] out. *)
Definition addTeam : AnnotatedFunction :=
  {| af_name := "addTeam";
     af_description := "Enter a team";
     argumentAnnotations := [string_argument "constructor" false;
                             string_argument "driver" true];
     implementation := quiet |}.

Definition senna_arguments : string :=
  "{" ++ quoted "driver" ++ ":" ++ quoted "Senna" ++ "}".

(** [generatePassword(length)] *)
Definition generatePassword : AnnotatedFunction :=
  {| af_name := "generatePassword";
     af_description := "Make a password";
     argumentAnnotations :=
       [{| arg_name := "length"; arg_required := false;
           forwardedArgs := [("type", JString "number")] |}];
     implementation := quiet |}.

(** [inspect(__proto__)] *)
Definition inspect : AnnotatedFunction :=
  {| af_name := "inspect";
     af_description := "Show an object";
     argumentAnnotations := [string_argument "__proto__" true];
     implementation := quiet |}.

(** ** Further parts of the provider *)

(** The fields of a document pointer that [getContextString] reads;
    [getContents] is the method it calls. *)
Record DocumentPointer := {
  doc_name : string;
  sourceApplication : string;
  getContents : unit -> string
}.

Definition newline : string := String (ascii_of_nat 10) EmptyString.

(** The template literal of line 85. *)
Definition document_entry (document : DocumentPointer) : string :=
  (doc_name document ++ " (" ++ sourceApplication document ++ "):"
   ++ newline ++ getContents document tt)%string.

(** [getContextString] (provider, lines 81-94).  [printTree] comes from
    the tree hook; [join] is [String.concat]. *)
Definition getContextString (printTree : list string -> string)
    (documents : list DocumentPointer) (categories : list string) : string :=
  let documentsString :=
    String.concat (newline ++ newline) (map document_entry documents) in
  let nonDocumentStrings := printTree categories in
  (documentsString ++ newline ++ newline ++ nonDocumentStrings)%string.

(** The props of the provider (lines 143-154): either an endpoint with an
    optional second endpoint, or a ready configuration. *)
Inductive CopilotProviderProps (Config : Type) :=
| EndpointProps (chatApiEndpoint : string) (chatApiEndpointV2 : option string)
| ConfigProps (chatApiConfig : Config).

Arguments EndpointProps {Config} chatApiEndpoint chatApiEndpointV2.
Arguments ConfigProps {Config} chatApiConfig.

(** [a || b] on an optional string. *)
Definition string_or (a : option string) (b : string) : string :=
  match a with
  | Some x => if truthy_string x then x else b
  | None => b
  end.

(** The choice of [copilotApiConfig] (lines 143-154).
    [StandardCopilotApiConfig] stands for the constructor of that class,
    with its four arguments. *)
Definition copilotApiConfig {Config : Type}
    (StandardCopilotApiConfig :
       string -> string -> Props JSON -> Props JSON -> Config)
    (props : CopilotProviderProps Config) : Config :=
  match props with
  | EndpointProps chatApiEndpoint chatApiEndpointV2 =>
      StandardCopilotApiConfig chatApiEndpoint
        (string_or chatApiEndpointV2 (chatApiEndpoint ++ "/v2")) [] []
  | ConfigProps chatApiConfig => chatApiConfig
  end.

(** A call of [setEntryPoint] or [removeEntryPoint], and a run of such
    calls from the empty registry of line 54. *)
Inductive RegistryCall :=
| SetEntryPoint (id : string) (entryPoint : AnnotatedFunction)
| RemoveEntryPoint (id : string).

Definition registry_call (call : RegistryCall) (r : EntryPoints) : EntryPoints :=
  match call with
  | SetEntryPoint id entryPoint => setEntryPoint id entryPoint r
  | RemoveEntryPoint id => removeEntryPoint id r
  end.

Definition registry_after (calls : list RegistryCall) (r : EntryPoints)
    : EntryPoints :=
  fold_left (fun r call => registry_call call r) calls r.

(** What the last call that names [id] leaves under it. *)
Definition binding_after (id : string) (calls : list RegistryCall)
    (before : option AnnotatedFunction) : option AnnotatedFunction :=
  fold_left (fun b call =>
               match call with
               | SetEntryPoint id' entryPoint =>
                   if id' =? id then Some entryPoint else b
               | RemoveEntryPoint id' => if id' =? id then None else b
               end)
            calls before.

(** Names that a property read finds without an own property of that
    name: on an object literal or a parsed object, and on an array. *)
Definition object_member (k : string) : bool :=
  mem_string k (prototype_keys ObjectPrototype).

Definition array_member (k : string) : bool :=
  ((k =? "length") || mem_string k (prototype_keys ArrayPrototype)
   || object_member k)%bool.

(** ** Further invariants of the chat hook *)

(** The request of a cycle: what [runChatCompletion] hands to
    [client.fetch]. *)
Definition request_of (options : UseChatOptions) (ms : list Message)
    (controller : nat) : FetchParams :=
  {| fetch_messages := messagesWithContext options ms;
     fetch_functions := functions options;
     fetch_signal := controller |}.


(** Options whose function-call handler is the one the provider builds
    from a registry that holds [getWeather]; a system message comes
    first in every request. *)
Definition be_brief : Message :=
  {| id := "s1"; createdAt := Some 0%Z; content := "Be brief."; role := system;
     function_call := None |}.

Definition dispatching_options : UseChatOptions :=
  {| initialMessages := Some [be_brief];
     onFunctionCall :=
       Some (getFunctionCallHandler reference_runtime [("w1", getWeather)]);
     functions :=
       Some (getChatCompletionFunctionDescriptions [("w1", getWeather)]) |}.

Definition fresh2 : Fresh := {| nanoid := "a2"; now := 2%Z |}.

Definition fresh3 : Fresh := {| nanoid := "a3"; now := 3%Z |}.

Definition again : Message :=
  {| id := "m2"; createdAt := Some 0%Z; content := "again"; role := user;
     function_call := None |}.

(** * Properties *)

(** ** Own properties *)

Section OwnPropertyFacts.

Context {V : Type}.
Implicit Types (ps : Props V) (k : string) (v : V).

Lemma own_get_none_keys ps k :
  own_get ps k = None <-> ~ In k (own_keys ps).
Proof.
  induction ps as [|[k' v'] t IH]; simpl.
  - tauto.
  - destruct (String.eqb_spec k' k) as [->|Hne].
    + split; [discriminate | intros H; exfalso; apply H; now left].
    + rewrite IH. split.
      * intros H [E|E]; [now apply Hne | now apply H].
      * intros H E. apply H. now right.
Qed.

Lemma own_get_replace_same ps k v w :
  own_get ps k = Some w -> own_get (own_replace ps k v) k = Some v.
Proof.
  induction ps as [|[k' v'] t IH]; simpl; [discriminate|].
  destruct (String.eqb_spec k' k) as [->|Hne]; simpl.
  - now rewrite String.eqb_refl.
  - intros H. apply String.eqb_neq in Hne. rewrite Hne. auto.
Qed.

Lemma own_get_replace_other ps k v k' :
  k' <> k -> own_get (own_replace ps k v) k' = own_get ps k'.
Proof.
  intros Hne. induction ps as [|[k0 v0] t IH]; simpl; [reflexivity|].
  destruct (String.eqb_spec k0 k) as [->|Hne0]; simpl.
  - destruct (String.eqb_spec k k') as [E|_]; [now subst|reflexivity].
  - now rewrite IH.
Qed.

Lemma own_get_insert_index ps n k v k' :
  own_get ps k = None ->
  own_get (own_insert_index ps n k v) k' =
  if k =? k' then Some v else own_get ps k'.
Proof.
  induction ps as [|[k0 v0] t IH]; simpl; [reflexivity|].
  destruct (String.eqb_spec k0 k) as [->|Hne0]; [discriminate|].
  intros Hk.
  destruct (array_index k0) as [n0|]; [destruct (n0 <? n)%N|]; simpl;
    try reflexivity.
  rewrite (IH Hk).
  destruct (String.eqb_spec k0 k') as [<-|_]; [|reflexivity].
  apply String.eqb_neq in Hne0. rewrite String.eqb_sym. now rewrite Hne0.
Qed.

Lemma own_get_app ps qs k :
  own_get (ps ++ qs) k =
  match own_get ps k with Some v => Some v | None => own_get qs k end.
Proof.
  induction ps as [|[k0 v0] t IH]; simpl; [reflexivity|].
  now destruct (k0 =? k).
Qed.

(** Reading back after a write. *)
Lemma own_get_set ps k v k' :
  own_get (own_set ps k v) k' = if k =? k' then Some v else own_get ps k'.
Proof.
  unfold own_set. destruct (own_get ps k) as [w|] eqn:Hk.
  - destruct (String.eqb_spec k k') as [<-|Hne].
    + eapply own_get_replace_same; eauto.
    + apply own_get_replace_other. congruence.
  - destruct (array_index k) as [n|].
    + now apply own_get_insert_index.
    + rewrite own_get_app. simpl.
      destruct (String.eqb_spec k k') as [<-|Hne].
      * now rewrite Hk.
      * now destruct (own_get ps k').
Qed.

(** A write under a present key changes one binding in place. *)
Lemma own_replace_split ps k v w :
  own_get ps k = Some w ->
  exists before after,
    ps = before ++ (k, w) :: after /\
    own_replace ps k v = before ++ (k, v) :: after /\
    ~ In k (own_keys before).
Proof.
  induction ps as [|[k0 v0] t IH]; simpl; [discriminate|].
  destruct (String.eqb_spec k0 k) as [->|Hne].
  - intros [= ->]. exists [], t. simpl. auto.
  - intros H. destruct (IH H) as (b & a & -> & Hr & Hn).
    exists ((k0, v0) :: b), a. simpl. rewrite Hr.
    repeat split; auto. intros [E|E]; auto.
Qed.

Lemma own_delete_absent ps k :
  own_get ps k = None -> own_delete ps k = ps.
Proof.
  induction ps as [|[k0 v0] t IH]; simpl; [reflexivity|].
  destruct (k0 =? k); [discriminate|]. intros H. now rewrite IH.
Qed.

Lemma own_get_delete ps k k' :
  own_get (own_delete ps k) k' = if k =? k' then None else own_get ps k'.
Proof.
  induction ps as [|[k0 v0] t IH]; simpl.
  - now destruct (k =? k').
  - destruct (String.eqb_spec k0 k) as [->|Hne]; simpl.
    + rewrite IH. now destruct (k =? k').
    + rewrite IH. destruct (String.eqb_spec k0 k') as [<-|_]; [|reflexivity].
      apply String.eqb_neq in Hne. rewrite String.eqb_sym. now rewrite Hne.
Qed.

Lemma own_keys_insert_index ps n k v x :
  In x (own_keys (own_insert_index ps n k v)) <-> x = k \/ In x (own_keys ps).
Proof.
  induction ps as [|[k0 v0] t IH]; simpl; [intuition|].
  destruct (array_index k0) as [n0|]; [destruct (n0 <? n)%N|]; simpl;
    try rewrite IH; intuition.
Qed.

Lemma own_insert_index_nodup ps n k v :
  NoDup (own_keys ps) -> ~ In k (own_keys ps) ->
  NoDup (own_keys (own_insert_index ps n k v)).
Proof.
  induction ps as [|[k0 v0] t IH]; simpl; intros Hnd Hk.
  - constructor; [tauto | constructor].
  - inversion Hnd as [|? ? Hk0 Ht]; subst.
    destruct (array_index k0) as [n0|]; [destruct (n0 <? n)%N|]; simpl;
      try (constructor; [simpl; tauto | now constructor]).
    constructor.
    + rewrite own_keys_insert_index. intros [E|E]; [subst; tauto | tauto].
    + apply IH; tauto.
Qed.

(** Writes and deletions keep the keys of an object distinct. *)
Lemma own_set_nodup ps k v :
  NoDup (own_keys ps) -> NoDup (own_keys (own_set ps k v)).
Proof.
  intros Hnd. unfold own_set. destruct (own_get ps k) as [w|] eqn:Hk.
  - destruct (own_replace_split ps k v w Hk) as (b & a & E & -> & _).
    subst ps. unfold own_keys in *. rewrite map_app in *. exact Hnd.
  - apply own_get_none_keys in Hk. destruct (array_index k).
    + now apply own_insert_index_nodup.
    + unfold own_keys in *. rewrite map_app. simpl.
      apply NoDup_app; auto.
      * constructor; [tauto | constructor].
      * intros x Hx [<-|[]]. tauto.
Qed.

Lemma own_delete_keys ps k x :
  In x (own_keys (own_delete ps k)) -> In x (own_keys ps).
Proof.
  induction ps as [|[k0 v0] t IH]; simpl; [tauto|].
  destruct (k0 =? k); simpl; intuition.
Qed.

Lemma own_delete_nodup ps k :
  NoDup (own_keys ps) -> NoDup (own_keys (own_delete ps k)).
Proof.
  induction ps as [|[k0 v0] t IH]; simpl; intros Hnd; [constructor|].
  inversion Hnd; subst. destruct (k0 =? k); simpl; auto.
  constructor; auto. intros H. now apply own_delete_keys in H.
Qed.

End OwnPropertyFacts.

(** ** The registry *)

Lemma setEntryPoint_keeps_keys_distinct id f (r : EntryPoints) :
  NoDup (own_keys r) -> NoDup (own_keys (setEntryPoint id f r)).
Proof. apply own_set_nodup. Qed.

Lemma removeEntryPoint_keeps_keys_distinct id (r : EntryPoints) :
  NoDup (own_keys r) -> NoDup (own_keys (removeEntryPoint id r)).
Proof. apply own_delete_nodup. Qed.

(** C9. Registering under an id that is already present replaces the entry
    of that id in place: the registry differs from the previous one in
    that binding only, schema compilation and call dispatch run over the
    same entry points with the new function in the place of the old one,
    and the old one is no longer bound to the id.  Entries under other
    ids read as before.  Unregistering an absent id returns the registry
    as it was. *)
Theorem setEntryPoint_last_write_wins
    (r : EntryPoints) (id : string) (f : AnnotatedFunction) :
  NoDup (own_keys r) ->
  (forall g, own_get r id = Some g ->
     exists before after,
       r = before ++ (id, g) :: after /\
       setEntryPoint id f r = before ++ (id, f) :: after /\
       ~ In id (own_keys before) /\ ~ In id (own_keys after) /\
       getChatCompletionFunctionDescriptions (setEntryPoint id f r) =
         entryPointsToChatCompletionFunctions
           (own_values before ++ f :: own_values after) /\
       (forall rt ms fc,
          getFunctionCallHandler rt (setEntryPoint id f r) ms fc =
          entryPointsToFunctionCallHandler rt
            (own_values before ++ f :: own_values after) ms fc)) /\
  own_get (setEntryPoint id f r) id = Some f /\
  (forall id', id' <> id ->
     own_get (setEntryPoint id f r) id' = own_get r id') /\
  (own_get r id = None -> removeEntryPoint id r = r).
Proof.
  intros Hnd. repeat split.
  - intros g Hg. unfold setEntryPoint, own_set. rewrite Hg.
    destruct (own_replace_split r id f g Hg) as (b & a & E & Hr & Hb).
    exists b, a. rewrite Hr.
    assert (Ha : ~ In id (own_keys a)).
    { subst r. unfold own_keys in Hnd. rewrite map_app in Hnd. simpl in Hnd.
      apply NoDup_remove_2 in Hnd. intros H. apply Hnd.
      apply in_or_app. now right. }
    unfold getChatCompletionFunctionDescriptions, getFunctionCallHandler,
      own_values.
    rewrite map_app. simpl. repeat split; auto.
  - unfold setEntryPoint. rewrite own_get_set. now rewrite String.eqb_refl.
  - intros id' Hne. unfold setEntryPoint. rewrite own_get_set.
    destruct (String.eqb_spec id id'); congruence.
  - apply own_delete_absent.
Qed.

(** ** Schema compilation *)

Lemma push_required_names annotations names :
  fold_left (fun names arg =>
               if arg_required arg then names ++ [arg_name arg] else names)
            annotations names =
  names ++ map arg_name (filter arg_required annotations).
Proof.
  revert names. induction annotations as [|a rest IH]; intros names; simpl.
  - now rewrite app_nil_r.
  - rewrite IH. destruct (arg_required a); simpl; [|reflexivity].
    now rewrite <- app_assoc.
Qed.

(** The schema carries the name and the description, and lists the names
    of the required annotations in annotation order. *)
Lemma schema_name_description_required f :
  let schema := annotatedFunctionToChatCompletionFunction f in
  name schema = af_name f /\
  description schema = af_description f /\
  type (parameters schema) = "object" /\
  required (parameters schema) =
    map arg_name (filter arg_required (argumentAnnotations f)).
Proof.
  simpl. repeat split. apply (push_required_names _ []).
Qed.

Lemma assign_parameters annotations (o : PlainObject (Props JSON)) :
  proto o = None ->
  (forall a, In a annotations -> arg_name a <> "__proto__") ->
  let o' := fold_left (fun parameters arg =>
                         obj_assign forwarded_has_own parameters
                           (arg_name arg) (forwardedArgs arg))
                      annotations o in
  proto o' = None /\
  forall k, own_get (own o') k =
            match last_annotation k annotations with
            | Some a => Some (forwardedArgs a)
            | None => own_get (own o) k
            end.
Proof.
  revert o. induction annotations as [|a rest IH]; intros o Hp Hn; simpl.
  - auto.
  - assert (Ha : (arg_name a =? "__proto__") = false).
    { apply String.eqb_neq. apply Hn. now left. }
    destruct (IH (obj_assign forwarded_has_own o (arg_name a) (forwardedArgs a)))
      as [Hp' Hg].
    + unfold obj_assign. rewrite Ha. simpl. exact Hp.
    + intros b Hb. apply Hn. now right.
    + split; [exact Hp'|]. intros k. rewrite Hg.
      destruct (last_annotation k rest); [reflexivity|].
      unfold obj_assign. rewrite Ha. simpl. rewrite own_get_set.
      now destruct (arg_name a =? k).
Qed.

(** Unless an annotation is named [__proto__], the own properties of
    [properties] are exactly the annotation names, each bound to the
    forwarded fields of the last annotation of that name, and the
    prototype is untouched. *)
Lemma schema_properties f :
  (forall a, In a (argumentAnnotations f) -> arg_name a <> "__proto__") ->
  let props := properties (parameters (annotatedFunctionToChatCompletionFunction f)) in
  proto props = None /\
  forall k, own_get (own props) k =
            option_map forwardedArgs (last_annotation k (argumentAnnotations f)).
Proof.
  intros Hn.
  destruct (assign_parameters (argumentAnnotations f) empty_object eq_refl Hn)
    as [Hp Hg].
  split; [exact Hp|]. intros k. simpl. rewrite Hg.
  now destruct (last_annotation k (argumentAnnotations f)).
Qed.

(** The schema of [getWeather]: both arguments are properties, [city]
    alone is required. *)
Lemma getWeather_schema :
  parameters (annotatedFunctionToChatCompletionFunction getWeather) =
  {| type := "object";
     properties := {| own := [("city", [("type", JString "string")]);
                              ("units", [("type", JString "string")])];
                      proto := None |};
     required := ["city"] |}.
Proof. reflexivity. Qed.

(** ** Dispatch *)

Lemma assign_entry_points entryPoints (o : PlainObject AnnotatedFunction) :
  own_get (own o) "__proto__" = None ->
  let table := fold_left (fun table entryPoint =>
                            obj_assign entry_point_has_own table
                              (af_name entryPoint) entryPoint)
                         entryPoints o in
  own_get (own table) "__proto__" = None /\
  proto table = match last_entry "__proto__" entryPoints with
                | Some p => Some p
                | None => proto o
                end /\
  forall k, k <> "__proto__" ->
            own_get (own table) k =
            match last_entry k entryPoints with
            | Some ep => Some ep
            | None => own_get (own o) k
            end.
Proof.
  revert o. induction entryPoints as [|a rest IH]; intros o Ho;
    cbn [fold_left last_entry].
  - auto.
  - destruct (String.eqb_spec (af_name a) "__proto__") as [E|Hne].
    + assert (Hs : obj_assign entry_point_has_own o (af_name a) a =
                   {| own := own o; proto := Some a |}).
      { unfold obj_assign, shadows. rewrite E, Ho. simpl.
        now destruct (proto o). }
      rewrite Hs. destruct (IH {| own := own o; proto := Some a |} Ho)
        as (H1 & H2 & H3).
      split; [exact H1|]. split.
      * rewrite H2. cbn [proto]. now destruct (last_entry "__proto__" rest).
      * intros k Hk. rewrite (H3 k Hk). cbn [own].
        destruct (last_entry k rest); [reflexivity|].
        destruct (String.eqb_spec (af_name a) k); congruence.
    + assert (Hs : obj_assign entry_point_has_own o (af_name a) a =
                   {| own := own_set (own o) (af_name a) a; proto := proto o |}).
      { unfold obj_assign. apply String.eqb_neq in Hne. now rewrite Hne. }
      rewrite Hs.
      destruct (IH {| own := own_set (own o) (af_name a) a; proto := proto o |})
        as (H1 & H2 & H3).
      { cbn [own]. rewrite own_get_set. apply String.eqb_neq in Hne. now rewrite Hne. }
      apply String.eqb_neq in Hne.
      split; [exact H1|]. split.
      * rewrite H2. cbn [proto]. now destruct (last_entry "__proto__" rest).
      * intros k Hk. rewrite (H3 k Hk). cbn [own].
        destruct (last_entry k rest); [reflexivity|]. rewrite own_get_set.
        now destruct (af_name a =? k).
Qed.

(** The table binds every name but [__proto__] to the last entry point
    registered under it. *)
Lemma table_lookup entryPoints k ep :
  k <> "__proto__" -> last_entry k entryPoints = Some ep ->
  resolve (obj_get entry_point_has_own (entrypointsByFunctionName entryPoints) k)
  = EntryPoint ep.
Proof.
  intros Hk He.
  destruct (assign_entry_points entryPoints empty_object eq_refl) as (_ & _ & H).
  unfold obj_get, entrypointsByFunctionName. rewrite (H k Hk), He. reflexivity.
Qed.

Lemma table_lookup_missing entryPoints k :
  last_entry k entryPoints = None ->
  last_entry "__proto__" entryPoints = None ->
  mem_string k (prototype_keys ObjectPrototype) = false ->
  obj_get entry_point_has_own (entrypointsByFunctionName entryPoints) k = Missing.
Proof.
  intros He Hp Hm.
  assert (Hk : k <> "__proto__") by (intros ->; discriminate).
  destruct (assign_entry_points entryPoints empty_object eq_refl) as (_ & H2 & H3).
  unfold obj_get, entrypointsByFunctionName.
  rewrite (H3 k Hk), He, H2, Hp. cbn [own proto empty_object own_get].
  now rewrite Hm.
Qed.

(** A name that is neither registered nor a member of
    [Object.prototype]: nothing is parsed, nothing is invoked, the
    promise is fulfilled. *)
Lemma dispatch_unregistered rt entryPoints ms fc :
  last_entry (called_name fc) entryPoints = None ->
  last_entry "__proto__" entryPoints = None ->
  mem_string (called_name fc) (prototype_keys ObjectPrototype) = false ->
  entryPointsToFunctionCallHandler rt entryPoints ms fc =
  {| parses := []; invoked := []; settled := Fulfilled |}.
Proof.
  intros He Hp Hm. unfold entryPointsToFunctionCallHandler.
  now rewrite (table_lookup_missing _ _ He Hp Hm).
Qed.

Lemma member_of_absent members k :
  own_get members k = None ->
  mem_string k (prototype_keys ObjectPrototype) = false ->
  member_of members k = Undefined.
Proof.
  intros Ho Hm. unfold member_of, inherited_get. rewrite Ho. cbn [chain_find].
  now rewrite Hm.
Qed.

Lemma params_of_object members annotations :
  paramsInCorrectOrder (JObject members) annotations =
  Some (map (fun arg => member_of members (arg_name arg)) annotations).
Proof.
  induction annotations as [|a rest IH]; simpl; [reflexivity|].
  rewrite IH. unfold member_of. now destruct (own_get members (arg_name a)).
Qed.

Lemma params_of_empty_array annotations :
  paramsInCorrectOrder (JArray []) annotations =
  Some (map (fun arg => member_of_empty_array (arg_name arg)) annotations).
Proof.
  induction annotations as [|a rest IH]; simpl; [reflexivity|].
  rewrite IH. unfold member_of_empty_array.
  destruct (arg_name a =? "length"); [reflexivity|].
  destruct (array_index (arg_name a)) as [i|]; [|reflexivity].
  now destruct (N.to_nat i).
Qed.

(** A call of a registered name with an argument text that parses to an
    object: the implementation of the last entry point of that name is
    invoked once, with one actual per annotation, in annotation order,
    each read from the object under the name of the annotation. *)
Lemma dispatch_marshals_in_annotation_order
    rt entryPoints ms fc ep text members :
  called_name fc <> "__proto__" ->
  last_entry (called_name fc) entryPoints = Some ep ->
  fc_arguments fc = Some text -> text <> EmptyString ->
  JSON_parse rt text = Some (JObject members) ->
  let actuals := map (fun arg => member_of members (arg_name arg))
                     (argumentAnnotations ep) in
  entryPointsToFunctionCallHandler rt entryPoints ms fc =
  {| parses := [text];
     invoked := [{| callee := ep; actuals := actuals |}];
     settled := match implementation ep actuals with
                | Some e => Rejected e
                | None => Fulfilled
                end |}.
Proof.
  intros Hk He Ha Ht Hp. unfold entryPointsToFunctionCallHandler.
  rewrite (table_lookup _ _ _ Hk He), Ha.
  apply String.eqb_neq in Ht. unfold truthy_string. rewrite Ht. simpl.
  rewrite Hp, params_of_object. reflexivity.
Qed.

Lemma member_of_empty_array_absent k :
  k <> "length" ->
  mem_string k (prototype_keys ArrayPrototype) = false ->
  mem_string k (prototype_keys ObjectPrototype) = false ->
  member_of_empty_array k = Undefined.
Proof.
  intros Hl Ha Ho. unfold member_of_empty_array, inherited_get.
  apply String.eqb_neq in Hl. rewrite Hl. cbn [chain_find].
  now rewrite Ha, Ho.
Qed.

(** A call of a registered name without an argument text: nothing is
    parsed and the actuals are read from the empty array. *)
Lemma dispatch_without_arguments rt entryPoints ms fc ep :
  called_name fc <> "__proto__" ->
  last_entry (called_name fc) entryPoints = Some ep ->
  fc_arguments fc = None \/ fc_arguments fc = Some EmptyString ->
  let actuals := map (fun arg => member_of_empty_array (arg_name arg))
                     (argumentAnnotations ep) in
  entryPointsToFunctionCallHandler rt entryPoints ms fc =
  {| parses := [];
     invoked := [{| callee := ep; actuals := actuals |}];
     settled := match implementation ep actuals with
                | Some e => Rejected e
                | None => Fulfilled
                end |}.
Proof.
  intros Hk He Ha. unfold entryPointsToFunctionCallHandler.
  rewrite (table_lookup _ _ _ Hk He).
  destruct Ha as [-> | ->]; simpl; now rewrite params_of_empty_array.
Qed.

(** The call [getWeather] with [{"units":"celsius","city":"Paris"}]
    invokes the implementation with [("Paris", "celsius")]. *)
Lemma getWeather_paris :
  entryPointsToFunctionCallHandler reference_runtime [getWeather] []
    {| fc_name := Some "getWeather"; fc_arguments := Some paris_arguments |} =
  {| parses := [paris_arguments];
     invoked := [{| callee := getWeather;
                    actuals := [OfJSON (JString "Paris");
                                OfJSON (JString "celsius")] |}];
     settled := Fulfilled |}.
Proof. reflexivity. Qed.

(** ** The chat hook *)

Lemma append_empty_r (s : string) : (s ++ EmptyString)%string = s.
Proof. induction s as [|c t IH]; simpl; [reflexivity | now rewrite IH]. Qed.

Lemma append_assoc (a b c : string) :
  ((a ++ b) ++ c)%string = (a ++ (b ++ c))%string.
Proof. induction a as [|x t IH]; simpl; [reflexivity | now rewrite IH]. Qed.

Lemma with_content_same (m : Message) : with_content m (content m) = m.
Proof. now destruct m. Qed.

Lemma last_of_snoc {A} (l : list A) (x : A) :
  nth_error (l ++ [x]) (List.length (l ++ [x]) - 1) = Some x.
Proof.
  rewrite last_length. simpl. rewrite Nat.sub_0_r.
  rewrite nth_error_app2 by lia. now rewrite Nat.sub_diag.
Qed.

Lemma firstn_of_snoc {A} (l : list A) (x : A) :
  firstn (List.length (l ++ [x]) - 1) (l ++ [x]) = l.
Proof.
  rewrite last_length. simpl. rewrite Nat.sub_0_r.
  rewrite firstn_app, firstn_all, Nat.sub_diag. simpl. apply app_nil_r.
Qed.

(** *** Attached cycles *)

Lemma attached_controller k c : attached k c = true <-> abortController c = k.
Proof. unfold attached. apply Nat.eqb_eq. Qed.

Lemma find_update k j c' cycles :
  abortController c' = j ->
  find (attached k) (map (fun x => if attached j x then c' else x) cycles) =
  option_map (fun x => if attached j x then c' else x) (find (attached k) cycles).
Proof.
  intros Hc. induction cycles as [|a rest IH]; simpl; [reflexivity|].
  destruct (attached j a) eqn:Ej.
  - apply attached_controller in Ej.
    assert (E : attached k c' = attached k a).
    { unfold attached. now rewrite Hc, Ej. }
    rewrite E. destruct (attached k a); simpl; [|exact IH].
    assert (Ea : attached j a = true) by now apply attached_controller.
    now rewrite Ea.
  - destruct (attached k a); simpl; [now rewrite Ej | exact IH].
Qed.

Lemma detach_update j c' cycles :
  abortController c' = j ->
  detach j (map (fun x => if attached j x then c' else x) cycles) =
  detach j cycles.
Proof.
  intros Hc. induction cycles as [|a rest IH]; simpl; [reflexivity|].
  destruct (attached j a) eqn:Ej; simpl.
  - assert (E : attached j c' = true) by now apply attached_controller.
    rewrite E. simpl. exact IH.
  - rewrite Ej. simpl. now rewrite IH.
Qed.

Lemma find_detach k j cycles :
  find (attached k) (detach j cycles) =
  if (k =? j)%nat then None else find (attached k) cycles.
Proof.
  induction cycles as [|a rest IH]; simpl; [now destruct (k =? j)%nat|].
  destruct (attached j a) eqn:Ej; simpl.
  - rewrite IH. destruct (Nat.eqb_spec k j) as [E|E]; [reflexivity|].
    apply attached_controller in Ej.
    assert (Ek : attached k a = false).
    { unfold attached. apply Nat.eqb_neq. congruence. }
    now rewrite Ek.
  - destruct (attached k a) eqn:Ek.
    + destruct (Nat.eqb_spec k j) as [E|E]; [|reflexivity].
      subst. congruence.
    + exact IH.
Qed.

Lemma controllers_update j c' cycles :
  abortController c' = j ->
  map abortController (map (fun x => if attached j x then c' else x) cycles) =
  map abortController cycles.
Proof.
  intros Hc. induction cycles as [|a rest IH]; simpl; [reflexivity|].
  rewrite IH. destruct (attached j a) eqn:Ej; [|reflexivity].
  apply attached_controller in Ej. congruence.
Qed.

Lemma in_update j c' cycles x :
  In x (map (fun x => if attached j x then c' else x) cycles) ->
  x = c' \/ In x cycles.
Proof.
  induction cycles as [|a rest IH]; simpl; [tauto|].
  intros [E|H].
  - destruct (attached j a); [now left | right; now left].
  - destruct (IH H); auto.
Qed.

Lemma in_detach j cycles x : In x (detach j cycles) -> In x cycles.
Proof. unfold detach. intros H. now apply filter_In in H. Qed.

Lemma controllers_detach j cycles :
  NoDup (map abortController cycles) ->
  NoDup (map abortController (detach j cycles)).
Proof.
  induction cycles as [|a rest IH]; simpl; intros H; [constructor|].
  inversion H as [|? ? Ha Hr]; subst.
  destruct (attached j a); simpl; [now apply IH|].
  constructor; [|now apply IH].
  intros Hin. apply Ha. apply in_map_iff in Hin.
  destruct Hin as (x & Hx & Hin). apply in_detach in Hin.
  rewrite <- Hx. now apply in_map.
Qed.

Lemma cycle_of_in k s c : cycle_of k s = Some c ->
  In c (listening s) /\ abortController c = k.
Proof.
  unfold cycle_of. intros H. apply find_some in H. destruct H as [Hin Ha].
  split; [exact Hin | now apply attached_controller].
Qed.

Lemma cycle_of_cleanup k j s :
  cycle_of k (cleanup j s) = if (k =? j)%nat then None else cycle_of k s.
Proof. unfold cycle_of, cleanup. cbn [listening]. apply find_detach. Qed.

Lemma cycle_of_setIsLoading k b s : cycle_of k (setIsLoading b s) = cycle_of k s.
Proof. reflexivity. Qed.

Lemma cycle_of_setMessages k ms s : cycle_of k (setMessages ms s) = cycle_of k s.
Proof. reflexivity. Qed.

Lemma cycle_of_set_listening k c s :
  cycle_of k (set_listening c s) =
  option_map (fun x => if attached (abortController c) x then c else x)
             (cycle_of k s).
Proof.
  unfold cycle_of, set_listening. cbn [listening]. now apply find_update.
Qed.

Section UseChatFacts.

Variable rt : Runtime.
Variable options : UseChatOptions.

Lemma start_well_formed env ms ms' s :
  well_formed s ->
  well_formed (runChatCompletion options env ms (setMessages ms' s)).
Proof.
  intros (Hnd & Hall & _). unfold well_formed. cbn.
  split; [|split].
  - constructor; [|exact Hnd]. intros Hin. apply in_map_iff in Hin.
    destruct Hin as (c & Hc & Hin). destruct (Hall c Hin) as [Hlt _]. lia.
  - intros c [<-|Hin]; cbn; [auto|].
    destruct (Hall c Hin) as (Hlt & Hr & Hf). auto.
  - repeat split. unfold cycle_of, attached. cbn. rewrite Nat.eqb_refl. eauto.
Qed.

Lemma cleanup_well_formed k s :
  well_formed s -> well_formed (cleanup k (setIsLoading false s)).
Proof.
  intros (Hnd & Hall & _). unfold well_formed. cbn.
  split; [|split].
  - now apply controllers_detach.
  - intros c Hin. apply in_detach in Hin. now apply Hall.
  - reflexivity.
Qed.

Lemma ref_kept (s s' : Chat) :
  abortControllerRef s' = abortControllerRef s ->
  isLoading s' = isLoading s -> created s' = created s ->
  (forall k c, cycle_of k s = Some c -> exists c', cycle_of k s' = Some c') ->
  match abortControllerRef s with
  | Some k =>
      isLoading s = true /\ S k = created s /\ exists c, cycle_of k s = Some c
  | None => isLoading s = false
  end ->
  match abortControllerRef s' with
  | Some k =>
      isLoading s' = true /\ S k = created s' /\ exists c, cycle_of k s' = Some c
  | None => isLoading s' = false
  end.
Proof.
  intros -> -> -> H. destruct (abortControllerRef s) as [k|]; [|auto].
  intros (Hl & Hk & c & Hc). repeat split; auto. eapply H; eauto.
Qed.

Lemma content_well_formed c text s :
  well_formed s -> cycle_of (abortController c) s = Some c ->
  well_formed (fst (on_event rt options c (ContentEvent text) s)).
Proof.
  intros (Hnd & Hall & Href) Hc. destruct (cycle_of_in _ _ _ Hc) as [Hin _].
  unfold well_formed. cbn [on_event fst].
  split; [|split].
  - cbn [listening set_listening setMessages]. now rewrite controllers_update.
  - cbn [listening set_listening setMessages created].
    intros x Hx. apply in_update in Hx.
    destruct Hx as [->|Hx]; [|now apply Hall]. cbn. now apply Hall.
  - apply (ref_kept s); try reflexivity; [|exact Href].
    intros k c0 Hc0.
    rewrite cycle_of_set_listening, cycle_of_setMessages, Hc0. cbn. eauto.
Qed.

Lemma step_well_formed a s : well_formed s -> well_formed (step rt options a s).
Proof.
  intros H. destruct a as [r env m|r env| |client ev]; simpl.
  - unfold append. destruct (rendered_isLoading r); [exact H|].
    now apply start_well_formed.
  - unfold reload.
    destruct (rendered_isLoading r
              || (List.length (rendered_messages r) =? 0)%nat)%bool;
      [exact H|]. now apply start_well_formed.
  - unfold stop. destruct (abortControllerRef s) as [k|]; [|exact H].
    destruct (cycle_of k s) as [c|]; now apply cleanup_well_formed.
  - unfold deliver. destruct (cycle_of client s) as [c|] eqn:E; [|exact H].
    destruct (cycle_of_in _ _ _ E) as [_ Hk]. subst client.
    destruct ev as [text|fname arguments| |error].
    + now apply content_well_formed.
    + cbn [on_event fst].
      apply (cleanup_well_formed (abortController c) (setMessages _ s)).
      exact H.
    + now apply cleanup_well_formed.
    + now apply cleanup_well_formed.
Qed.

(** Every reachable state is well formed, whichever renders the calls
    of [append] and [reload] were made from. *)
Lemma reachable_well_formed s : reachable rt options s -> well_formed s.
Proof.
  induction 1 as [|a s _ IH].
  - unfold well_formed. cbn.
    split; [constructor | split; [intros c [] | reflexivity]].
  - now apply step_well_formed.
Qed.

(** Events of a client whose listeners are detached change nothing. *)
Lemma deliver_all_detached client evs s :
  cycle_of client s = None -> deliver_all rt options client evs s = (s, None).
Proof.
  intros H. induction evs as [|ev rest IH]; simpl; [reflexivity|].
  unfold deliver. now rewrite H.
Qed.

(** Once a cycle has ended it stays ended, whatever happens next: later
    cycles get later controllers. *)
Lemma step_ended k a s : ended k s -> ended k (step rt options a s).
Proof.
  unfold ended. intros [Hk Hc].
  assert (Hstart : forall env ms ms',
             k < created (runChatCompletion options env ms (setMessages ms' s)) /\
             cycle_of k (runChatCompletion options env ms (setMessages ms' s))
             = None).
  { intros env ms ms'. cbn. split; [lia|].
    unfold cycle_of, attached in *. cbn.
    destruct (Nat.eqb_spec (created s) k); [lia | exact Hc]. }
  assert (Hend : forall j ms,
             k < created (cleanup j (setIsLoading false (setMessages ms s))) /\
             cycle_of k (cleanup j (setIsLoading false (setMessages ms s)))
             = None).
  { intros j ms. split; [exact Hk|].
    rewrite cycle_of_cleanup, cycle_of_setIsLoading, cycle_of_setMessages, Hc.
    now destruct (k =? j)%nat. }
  destruct a as [r env m|r env| |client ev]; simpl.
  - unfold append. destruct (rendered_isLoading r); simpl; [auto | apply Hstart].
  - unfold reload.
    destruct (rendered_isLoading r
              || (List.length (rendered_messages r) =? 0)%nat)%bool;
      simpl; [auto | apply Hstart].
  - unfold stop. destruct (abortControllerRef s) as [j|]; simpl; [|auto].
    destruct (cycle_of j s) as [c|]; simpl; apply (Hend _ (messages s)).
  - unfold deliver. destruct (cycle_of client s) as [c|] eqn:E; simpl; [|auto].
    destruct ev as [text|fname arguments| |error]; cbn [on_event fst].
    + split; [exact Hk|].
      rewrite cycle_of_set_listening, cycle_of_setMessages. now rewrite Hc.
    + apply Hend.
    + apply (Hend _ (messages s)).
    + apply (Hend _ (messages s)).
Qed.

Lemma run_ended k actions : forall s,
  ended k s -> ended k (run rt options actions s).
Proof.
  induction actions as [|a rest IH]; intros s H; simpl; [exact H|].
  apply IH. now apply step_ended.
Qed.

Lemma deliver_ended k ev s :
  ended k s -> deliver rt options k ev s = (s, None).
Proof. intros [_ Hc]. unfold deliver. now rewrite Hc. Qed.

Lemma content_run frames : forall c s,
  cycle_of (abortController c) s = Some c ->
  messages s = cycle_messages c ++ [assistantMessage c] ->
  let reply := with_content (assistantMessage c)
                 (content (assistantMessage c) ++ concatenation frames) in
  deliver_all rt options (abortController c)
    (map ContentEvent frames ++ [EndEvent]) s =
  ({| messages := cycle_messages c ++ [reply];
      isLoading := false;
      abortControllerRef := None;
      listening := detach (abortController c) (listening s);
      fetched := fetched s;
      created := created s |},
   Some (complete options c (CycleResolved reply))).
Proof.
  induction frames as [|f rest IH]; intros c s Hl Hm; simpl.
  - unfold deliver. rewrite Hl. simpl.
    rewrite append_empty_r, with_content_same.
    unfold cleanup, setIsLoading. simpl. now rewrite Hm.
  - unfold deliver at 1. rewrite Hl. cbn [on_event].
    match goal with
    | |- context [set_listening ?c1 ?s1] =>
        pose proof (IH c1 (set_listening c1 s1)) as H
    end.
    cbn [abortController cycle_messages assistantMessage] in H.
    rewrite H; clear H.
    + cbn [set_listening setMessages listening fetched created
             cycle_messages assistantMessage abortController].
      rewrite detach_update by reflexivity.
      unfold with_content, complete. cbn. now rewrite append_assoc.
    + rewrite cycle_of_set_listening, cycle_of_setMessages, Hl.
      cbn. unfold attached. cbn. now rewrite Nat.eqb_refl.
    + reflexivity.
Qed.

(** C1. After [append], called from a render that saw no cycle in
    flight, a run of content frames followed by the end event leaves the
    messages of that render, the appended message and one assistant
    message whose content is the concatenation of the frame payloads in
    arrival order; the in-flight flag is cleared and the promise of the
    turn is fulfilled with that message. *)
Theorem content_frames_concatenate env message frames r s :
  rendered_isLoading r = false ->
  let started := fst (append options r env message s) in
  let final := deliver_all rt options (created s)
                 (map ContentEvent frames ++ [EndEvent]) started in
  let reply := with_content (blank_assistant env) (concatenation frames) in
  messages (fst final) = rendered_messages r ++ [message; reply] /\
  content reply = concatenation frames /\
  role reply = assistant /\
  isLoading (fst final) = false /\
  snd final =
    Some {| cycle_outcome := CycleResolved reply;
            turn := {| parses := []; invoked := []; settled := Fulfilled |} |}.
Proof.
  intros Hl. unfold append. rewrite Hl. cbn [fst].
  pose (c := {| cycle_messages := rendered_messages r ++ [message];
                assistantMessage := blank_assistant env;
                abortController := created s |}).
  pose proof (content_run frames c
                (runChatCompletion options env (rendered_messages r ++ [message])
                   (setMessages (rendered_messages r ++ [message]) s))) as H.
  cbn [abortController c] in H. cbv zeta in H. rewrite H; clear H.
  - cbn. rewrite <- app_assoc. simpl. auto.
  - unfold cycle_of, attached. cbn. now rewrite Nat.eqb_refl.
  - reflexivity.
Qed.

(** C5. In a reachable state, a function-call event of a client whose
    listeners are attached sets the [function_call] field of the
    assistant message of its cycle to the received name and the
    serialized arguments, publishes the list with that message, clears
    the in-flight flag and the controller ref, detaches the listeners of
    that client and resolves the promise of the cycle with that message,
    at that very event and without an end event; whatever that client
    emits afterwards, at once or after any further actions, changes
    nothing. *)
Theorem function_call_ends_cycle s c fname arguments :
  reachable rt options s ->
  cycle_of (abortController c) s = Some c ->
  let call := {| fc_name := Some fname;
                 fc_arguments := Some (JSON_stringify rt arguments) |} in
  let reply := with_function_call (assistantMessage c) call in
  let after := deliver rt options (abortController c)
                 (FunctionEvent fname arguments) s in
  messages (fst after) = cycle_messages c ++ [reply] /\
  function_call reply = Some call /\
  content reply = content (assistantMessage c) /\
  isLoading (fst after) = false /\
  cycle_of (abortController c) (fst after) = None /\
  abortControllerRef (fst after) = None /\
  option_map cycle_outcome (snd after) = Some (CycleResolved reply) /\
  (forall evs,
     deliver_all rt options (abortController c) evs (fst after) =
     (fst after, None)) /\
  (forall actions ev,
     deliver rt options (abortController c) ev
       (run rt options actions (fst after)) =
     (run rt options actions (fst after), None)).
Proof.
  intros Hr Hl. pose proof (reachable_well_formed s Hr) as (_ & Hall & _).
  destruct (cycle_of_in _ _ _ Hl) as [Hin _].
  destruct (Hall c Hin) as (Hk & _ & _).
  unfold deliver at 1. rewrite Hl. cbn [on_event fst snd].
  assert (Hgone : cycle_of (abortController c)
                    (cleanup (abortController c)
                       (setIsLoading false
                          (setMessages
                             (cycle_messages c ++
                              [with_function_call (assistantMessage c)
                                 {| fc_name := Some fname;
                                    fc_arguments :=
                                      Some (JSON_stringify rt arguments) |}])
                             s))) = None).
  { rewrite cycle_of_cleanup. now rewrite Nat.eqb_refl. }
  repeat split.
  - exact Hgone.
  - intros evs. now apply deliver_all_detached.
  - intros actions ev. apply deliver_ended, run_ended.
    split; [exact Hk | exact Hgone].
Qed.

End UseChatFacts.

(** *** Calls through the closures of a render that is out of date *)

(** C4. Two calls of [append] through the closures of one render, the
    first render: the first starts a cycle and writes the flag, the
    second still reads the flag of its render, passes the guard and
    starts a second cycle while the first is in flight.  Both cycles are
    attached, two requests were made, and the published list is that of
    the second call, without the first message. *)
Theorem append_twice_from_one_render :
  let r := render initial in
  let first := append no_options r fresh1 hi initial in
  let second := append no_options r fresh2 again (fst first) in
  snd first = Pending /\
  isLoading (fst first) = true /\
  snd second = Pending /\
  map abortController (listening (fst second)) = [1; 0] /\
  map fetch_messages (fetched (fst second)) = [[hi]; [again]] /\
  messages (fst second) = [again; blank_assistant fresh2].
Proof. repeat split. Qed.

(** C6. After two calls of [append] through the closures of one render
    two cycles are in flight and the ref holds the controller of the
    second.  [stop] rejects the second with [AbortError]; the first
    stays attached, a content event of its client still rewrites the
    published list, and a further [stop] finds the ref empty and settles
    nothing. *)
Theorem stop_leaves_earlier_cycle_running :
  let r := render initial in
  let both := fst (append no_options r fresh2 again
                     (fst (append no_options r fresh1 hi initial))) in
  let stopped := stop no_options both in
  let late := deliver reference_runtime no_options 0 (ContentEvent "late")
                (fst stopped) in
  option_map cycle_outcome (snd stopped) = Some (CycleRejected AbortError) /\
  map abortController (listening (fst stopped)) = [0] /\
  messages (fst stopped) = [again; blank_assistant fresh2] /\
  messages (fst late) = [hi; with_content (blank_assistant fresh1) "late"] /\
  stop no_options (fst stopped) = (fst stopped, None).
Proof. repeat split. Qed.

(** C7. [reload] through the closures of a render that is out of date.
    After a completed turn, [append] and then [reload] through the
    closures of the same render: [reload] reads the flag of its render
    and starts a second cycle while the first is in flight.  And while a
    cycle streams, [stop] and then [reload] through the closures of the
    streaming render: the state is not streaming any more and its last
    message is the assistant message, yet [reload] reads the flag of its
    render and returns at once. *)
Theorem reload_from_stale_render :
  let answered :=
    fst (deliver_all reference_runtime no_options 0
           [ContentEvent "Hello"; EndEvent]
           (fst (append no_options (render initial) fresh1 hi initial))) in
  let r := render answered in
  let appended := fst (append no_options r fresh2 again answered) in
  let reloaded := reload no_options r fresh3 appended in
  let streaming := fst (append no_options (render initial) fresh1 hi initial) in
  let stopped := fst (stop no_options streaming) in
  (isLoading appended = true /\
   snd reloaded = Pending /\
   map abortController (listening (fst reloaded)) = [2; 1] /\
   map fetch_messages (fetched (fst reloaded)) =
     [[hi]; [hi; with_content (blank_assistant fresh1) "Hello"; again]; [hi]]) /\
  (isLoading stopped = false /\
   messages stopped = [hi; blank_assistant fresh1] /\
   reload no_options (render streaming) fresh2 stopped = (stopped, ReturnedEarly)).
Proof. repeat split. Qed.

(** ** Calls that meet a property the table or the arguments inherit *)

(** C2. The argument text [{"driver":"Senna"}] leaves the argument
    [constructor] of [addTeam] out.  The implementation is invoked with
    the actuals in annotation order, but the position of the absent
    argument holds the [constructor] member of [Object.prototype], not
    [undefined]. *)
Theorem absent_argument_reads_prototype :
  reference_parse senna_arguments = Some (JObject [("driver", JString "Senna")]) /\
  own_get [("driver", JString "Senna")] "constructor" = None /\
  entryPointsToFunctionCallHandler reference_runtime [addTeam] []
    {| fc_name := Some "addTeam"; fc_arguments := Some senna_arguments |} =
  {| parses := [senna_arguments];
     invoked := [{| callee := addTeam;
                    actuals := [Inherited ObjectPrototype "constructor";
                                OfJSON (JString "Senna")] |}];
     settled := Fulfilled |}.
Proof. repeat split. Qed.

(** C3. For [inspect], whose one annotation is named [__proto__], the
    assignment [parameters[arg.name] = forwardedArgs] installs the
    forwarded fields as prototype of [parameters]: the compiled
    [properties] object has no own property at all, while [required]
    lists [__proto__]. *)
Theorem proto_annotation_is_no_property :
  let schema := annotatedFunctionToChatCompletionFunction inspect in
  own (properties (parameters schema)) = [] /\
  proto (properties (parameters schema)) = Some [("type", JString "string")] /\
  required (parameters schema) = ["__proto__"].
Proof. repeat split. Qed.

(** C8. No entry point is named [constructor], yet the table, an object
    literal, inherits a member of that name from [Object.prototype]: the
    handler takes it for an entry point and is rejected with a
    [TypeError] when it iterates the missing [argumentAnnotations].  With
    an argument text present, the text is parsed first. *)
Theorem unregistered_prototype_name_rejects (rt : Runtime) (ms : list Message) :
  last_entry "constructor" [getWeather] = None /\
  entryPointsToFunctionCallHandler rt [getWeather] ms
    {| fc_name := Some "constructor"; fc_arguments := None |} =
  {| parses := []; invoked := []; settled := Rejected TypeError |} /\
  entryPointsToFunctionCallHandler reference_runtime [getWeather] ms
    {| fc_name := Some "constructor"; fc_arguments := Some "{}" |} =
  {| parses := ["{}"]; invoked := []; settled := Rejected TypeError |}.
Proof. repeat split. Qed.

(** C10. Without an argument text the actuals are read from the empty
    array [[]]: nothing is parsed and no error is raised, but the
    argument [length] of [generatePassword] receives the length of that
    array, [0], not [undefined]. *)
Theorem missing_arguments_read_array_length (rt : Runtime) (ms : list Message) :
  entryPointsToFunctionCallHandler rt [generatePassword] ms
    {| fc_name := Some "generatePassword"; fc_arguments := None |} =
  {| parses := [];
     invoked := [{| callee := generatePassword;
                    actuals := [OfJSON (JNumber 0)] |}];
     settled := Fulfilled |} /\
  entryPointsToFunctionCallHandler rt [generatePassword] ms
    {| fc_name := Some "generatePassword"; fc_arguments := Some EmptyString |} =
  {| parses := [];
     invoked := [{| callee := generatePassword;
                    actuals := [OfJSON (JNumber 0)] |}];
     settled := Fulfilled |}.
Proof. split; reflexivity. Qed.

(** ** Instances *)

(** The scenario of C1: [append] of the user message [hi], the frames
    [He] and [llo], then the end event. *)
Lemma content_frames_concatenate_witness :
  rendered_isLoading (render initial) = false /\
  let final := deliver_all reference_runtime no_options 0
                 [ContentEvent "He"; ContentEvent "llo"; EndEvent]
                 (fst (append no_options (render initial) fresh1 hi initial)) in
  messages (fst final) =
    [hi; {| id := "a1"; createdAt := Some 1%Z; content := "Hello";
            role := assistant; function_call := None |}] /\
  isLoading (fst final) = false.
Proof.
  split; [reflexivity|].
  pose proof (content_frames_concatenate reference_runtime no_options
                fresh1 hi ["He"; "llo"] (render initial) initial eq_refl) as H.
  destruct H as (H1 & _ & _ & H2 & _).
  split; [exact H1 | exact H2].
Defined.

Lemma function_call_ends_cycle_witness :
  let streaming := fst (append no_options (render initial) fresh1 hi initial) in
  let after := deliver reference_runtime no_options 0
                 (FunctionEvent "getWeather" (JObject [("city", JString "Paris")]))
                 streaming in
  option_map function_call (nth_error (messages (fst after)) 1) =
    Some (Some {| fc_name := Some "getWeather";
                  fc_arguments :=
                    Some ("{" ++ quoted "city" ++ ":" ++ quoted "Paris" ++ "}")%string |}) /\
  isLoading (fst after) = false.
Proof.
  pose proof (function_call_ends_cycle reference_runtime no_options
                (fst (append no_options (render initial) fresh1 hi initial))
                {| cycle_messages := [hi];
                   assistantMessage := blank_assistant fresh1;
                   abortController := 0 |}
                "getWeather" (JObject [("city", JString "Paris")])
                (reachable_step _ _ (DoAppend (render initial) fresh1 hi) _
                   (reachable_initial _ _))
                eq_refl) as H.
  destruct H as (H1 & _ & _ & H2 & _).
  split; [|exact H2].
  exact (f_equal (fun l => option_map function_call (nth_error l 1)) H1).
Defined.

Lemma setEntryPoint_last_write_wins_witness :
  NoDup (own_keys [("w1", getWeather); ("p1", generatePassword)]) /\
  getChatCompletionFunctionDescriptions
    (setEntryPoint "w1" addTeam [("w1", getWeather); ("p1", generatePassword)]) =
  entryPointsToChatCompletionFunctions [addTeam; generatePassword] /\
  own_get (setEntryPoint "w1" addTeam
             [("w1", getWeather); ("p1", generatePassword)]) "p1" =
  Some generatePassword.
Proof.
  assert (Hnd : NoDup (own_keys [("w1", getWeather); ("p1", generatePassword)])).
  { repeat constructor; simpl; intuition discriminate. }
  split; [exact Hnd|].
  destruct (setEntryPoint_last_write_wins
              [("w1", getWeather); ("p1", generatePassword)] "w1" addTeam Hnd)
    as (_ & _ & Hother & _).
  split; [reflexivity|].
  rewrite (Hother "p1") by discriminate. reflexivity.
Defined.

(** * Further properties *)

(** ** The registry *)

Section OwnPropertyRoundTrips.

Context {V : Type}.
Implicit Types (ps : Props V) (k : string) (v : V).

Lemma own_delete_insert_index ps n k v :
  own_get ps k = None -> own_delete (own_insert_index ps n k v) k = ps.
Proof.
  induction ps as [|[k0 v0] t IH]; simpl.
  - intros _. now rewrite String.eqb_refl.
  - destruct (String.eqb_spec k0 k) as [->|Hne]; [discriminate|].
    intros Hk. apply String.eqb_neq in Hne.
    destruct (array_index k0) as [n0|]; [destruct (n0 <? n)%N|]; simpl;
      rewrite ?String.eqb_refl, ?Hne;
      try (now rewrite (own_delete_absent t k Hk)).
    now rewrite (IH Hk).
Qed.

Lemma own_delete_snoc ps k v :
  own_get ps k = None -> own_delete (ps ++ [(k, v)]) k = ps.
Proof.
  induction ps as [|[k0 v0] t IH]; simpl.
  - intros _. now rewrite String.eqb_refl.
  - destruct (k0 =? k); [discriminate|]. intros Hk. now rewrite (IH Hk).
Qed.

Lemma own_delete_set ps k v :
  own_get ps k = None -> own_delete (own_set ps k v) k = ps.
Proof.
  intros Hk. unfold own_set. rewrite Hk. destruct (array_index k).
  - now apply own_delete_insert_index.
  - now apply own_delete_snoc.
Qed.

Lemma own_delete_filter ps k :
  own_delete ps k = filter (fun b => negb (fst b =? k)) ps.
Proof.
  induction ps as [|[k0 v0] t IH]; simpl; [reflexivity|].
  destruct (k0 =? k); simpl; now rewrite IH.
Qed.

End OwnPropertyRoundTrips.

(** X11. [removeEntryPoint] takes the binding of the id away and nothing
    else: the id reads as absent afterwards, every other id reads as
    before, the remaining entry points keep their order, and distinct
    ids stay distinct. *)
Theorem removeEntryPoint_removes_one_binding (id : string) (r : EntryPoints) :
  own_get (removeEntryPoint id r) id = None /\
  (forall id', id' <> id ->
     own_get (removeEntryPoint id r) id' = own_get r id') /\
  own_values (removeEntryPoint id r) =
    own_values (filter (fun b => negb (fst b =? id)) r) /\
  (NoDup (own_keys r) -> NoDup (own_keys (removeEntryPoint id r))).
Proof.
  unfold removeEntryPoint. repeat split.
  - rewrite own_get_delete. now rewrite String.eqb_refl.
  - intros id' Hne. rewrite own_get_delete.
    destruct (String.eqb_spec id id'); congruence.
  - now rewrite own_delete_filter.
  - apply own_delete_nodup.
Qed.

(** X12. Registering an entry point under an id that is not in use and
    unregistering that id again gives back the registry as it was, order
    included. *)
Theorem register_then_unregister_restores
    (id : string) (f : AnnotatedFunction) (r : EntryPoints) :
  own_get r id = None ->
  removeEntryPoint id (setEntryPoint id f r) = r.
Proof. intros H. now apply own_delete_set. Qed.

(** X13. An entry point registered under a new id that is not an array
    index comes last: its schema is appended to the compiled schemas, and
    the schemas of the entry points registered before keep their places. *)
Theorem new_entry_point_is_listed_last
    (id : string) (f : AnnotatedFunction) (r : EntryPoints) :
  own_get r id = None -> array_index id = None ->
  setEntryPoint id f r = r ++ [(id, f)] /\
  getChatCompletionFunctionDescriptions (setEntryPoint id f r) =
    getChatCompletionFunctionDescriptions r ++
    [annotatedFunctionToChatCompletionFunction f].
Proof.
  intros Hk Hi.
  assert (E : setEntryPoint id f r = r ++ [(id, f)]).
  { unfold setEntryPoint, own_set. now rewrite Hk, Hi. }
  split; [exact E|]. rewrite E.
  unfold getChatCompletionFunctionDescriptions,
    entryPointsToChatCompletionFunctions, own_values.
  now rewrite !map_app.
Qed.

Lemma registry_after_from calls : forall (r : EntryPoints) id,
  NoDup (own_keys r) ->
  own_get (registry_after calls r) id = binding_after id calls (own_get r id) /\
  NoDup (own_keys (registry_after calls r)).
Proof.
  induction calls as [|call rest IH]; intros r id Hnd; simpl; [auto|].
  destruct call as [id' ep|id']; simpl.
  - destruct (IH (setEntryPoint id' ep r) id) as [Hg Hn].
    { now apply own_set_nodup. }
    split; [|exact Hn]. rewrite Hg. unfold setEntryPoint.
    now rewrite own_get_set.
  - destruct (IH (removeEntryPoint id' r) id) as [Hg Hn].
    { now apply own_delete_nodup. }
    split; [|exact Hn]. rewrite Hg. unfold removeEntryPoint.
    now rewrite own_get_delete.
Qed.

(** X14. After any run of [setEntryPoint] and [removeEntryPoint] calls
    on the empty registry, an id is bound to what the last call naming
    it left there: the entry point of a [setEntryPoint], nothing after a
    [removeEntryPoint] or when no call named it.  No id is bound
    twice. *)
Theorem registry_calls_last_write_wins (calls : list RegistryCall) (id : string) :
  own_get (registry_after calls []) id = binding_after id calls None /\
  NoDup (own_keys (registry_after calls [])).
Proof. apply (registry_after_from calls [] id). constructor. Qed.

Lemma register_then_unregister_restores_witness :
  own_get [("w1", getWeather)] "p1" = None /\
  removeEntryPoint "p1" (setEntryPoint "p1" generatePassword [("w1", getWeather)])
  = [("w1", getWeather)].
Proof.
  split; [reflexivity|].
  apply (register_then_unregister_restores "p1" generatePassword
           [("w1", getWeather)]).
  reflexivity.
Defined.

Lemma new_entry_point_is_listed_last_witness :
  getChatCompletionFunctionDescriptions
    (setEntryPoint "p1" generatePassword [("w1", getWeather)]) =
  [annotatedFunctionToChatCompletionFunction getWeather;
   annotatedFunctionToChatCompletionFunction generatePassword].
Proof.
  destruct (new_entry_point_is_listed_last "p1" generatePassword
              [("w1", getWeather)] eq_refl eq_refl) as [_ H].
  exact H.
Defined.

(** ** Dispatch *)

Lemma last_entry_in k entryPoints ep :
  last_entry k entryPoints = Some ep -> In ep entryPoints /\ af_name ep = k.
Proof.
  induction entryPoints as [|a rest IH]; simpl; [discriminate|].
  destruct (last_entry k rest) as [b|].
  - intros [= ->]. destruct (IH eq_refl). auto.
  - destruct (String.eqb_spec (af_name a) k); [|discriminate].
    intros [= ->]. auto.
Qed.

Lemma last_entry_none k entryPoints :
  (forall ep, In ep entryPoints -> af_name ep <> k) ->
  last_entry k entryPoints = None.
Proof.
  intros H. destruct (last_entry k entryPoints) as [ep|] eqn:E; [|reflexivity].
  apply last_entry_in in E. destruct E as [Hin Hn]. now apply H in Hin.
Qed.

Lemma last_entry_unique entryPoints ep :
  NoDup (map af_name entryPoints) -> In ep entryPoints ->
  last_entry (af_name ep) entryPoints = Some ep.
Proof.
  induction entryPoints as [|a rest IH]; simpl; [tauto|].
  intros Hnd Hin. inversion Hnd as [|? ? Hna Hrest]; subst.
  destruct Hin as [->|Hin].
  - rewrite last_entry_none, String.eqb_refl; [reflexivity|].
    intros b Hb E. apply Hna. rewrite <- E. now apply in_map.
  - now rewrite (IH Hrest Hin).
Qed.

(** The table resolves a name to an entry point exactly when an entry
    point of that name is in the list, and then to the last one. *)
Lemma resolve_registered k entryPoints ep :
  last_entry k entryPoints = Some ep ->
  resolve (obj_get entry_point_has_own (entrypointsByFunctionName entryPoints) k)
  = EntryPoint ep.
Proof.
  intros He.
  destruct (assign_entry_points entryPoints empty_object eq_refl)
    as (H1 & H2 & H3).
  unfold obj_get, entrypointsByFunctionName.
  destruct (String.eqb_spec k "__proto__") as [->|Hk].
  - rewrite H1, H2, He. reflexivity.
  - rewrite (H3 k Hk), He. reflexivity.
Qed.

Lemma resolve_entry_point k entryPoints ep :
  resolve (obj_get entry_point_has_own (entrypointsByFunctionName entryPoints) k)
  = EntryPoint ep ->
  last_entry k entryPoints = Some ep.
Proof.
  destruct (assign_entry_points entryPoints empty_object eq_refl)
    as (H1 & H2 & H3).
  unfold obj_get, entrypointsByFunctionName.
  destruct (String.eqb_spec k "__proto__") as [->|Hk].
  - rewrite H1, H2.
    destruct (last_entry "__proto__" entryPoints) as [p|]; cbn.
    + now intros [= ->].
    + discriminate.
  - rewrite (H3 k Hk).
    destruct (last_entry k entryPoints) as [b|]; cbn [resolve own empty_object own_get].
    + now intros [= ->].
    + rewrite H2. clear H1 H2 H3.
      destruct (last_entry "__proto__" entryPoints) as [p|]; cbn [proto empty_object].
      * destruct (entry_point_has_own p k).
        { cbn [resolve]. destruct (k =? "name");
            [destruct (truthy_string (af_name p)); discriminate|].
          destruct (k =? "description");
            [destruct (truthy_string (af_description p)); discriminate|].
          discriminate. }
        destruct (mem_string k (prototype_keys ObjectPrototype)); discriminate.
      * destruct (mem_string k (prototype_keys ObjectPrototype)); discriminate.
Qed.

Lemma params_length args annotations : forall params,
  paramsInCorrectOrder args annotations = Some params ->
  List.length params = List.length annotations.
Proof.
  induction annotations as [|a rest IH]; simpl; intros params.
  - now intros [= <-].
  - destruct (js_get args (arg_name a)); [|discriminate].
    destruct (paramsInCorrectOrder args rest) as [vs|]; [|discriminate].
    intros [= <-]. simpl. now rewrite (IH vs eq_refl).
Qed.

(** X15. Whatever the call and the registry: if the handler invokes an
    implementation at all, it invokes exactly one, that of the last entry
    point in the list whose name is the called name, with one actual per
    annotation of that entry point, and the promise of the handler
    settles as the implementation does. *)
Theorem handler_invokes_registered_entry_point rt entryPoints ms fc i :
  let ran := entryPointsToFunctionCallHandler rt entryPoints ms fc in
  In i (invoked ran) ->
  invoked ran = [i] /\
  last_entry (called_name fc) entryPoints = Some (callee i) /\
  In (callee i) entryPoints /\
  af_name (callee i) = called_name fc /\
  List.length (actuals i) = List.length (argumentAnnotations (callee i)) /\
  settled ran = match implementation (callee i) (actuals i) with
                | Some e => Rejected e
                | None => Fulfilled
                end.
Proof.
  unfold entryPointsToFunctionCallHandler.
  destruct (resolve _) as [ep| |] eqn:R; cbv zeta;
    try (destruct (match fc_arguments fc with
                   | Some a => if truthy_string a then Some a else None
                   | None => None
                   end) as [a|];
         [destruct (JSON_parse rt a) as [args|]|]);
    cbn [invoked]; try (intros []).
  - destruct (paramsInCorrectOrder args (argumentAnnotations ep)) as [ps|] eqn:P;
      cbn [invoked settled]; [|intros []].
    intros [<-|[]]. cbn [callee actuals].
    apply resolve_entry_point in R. destruct (last_entry_in _ _ _ R) as [Hin Hn].
    apply params_length in P. auto 10.
  - destruct (paramsInCorrectOrder (JArray []) (argumentAnnotations ep))
      as [ps|] eqn:P; cbn [invoked settled]; [|intros []].
    intros [<-|[]]. cbn [callee actuals].
    apply resolve_entry_point in R. destruct (last_entry_in _ _ _ R) as [Hin Hn].
    apply params_length in P. auto 10.
Qed.

Lemma handler_invokes_registered_entry_point_witness :
  let i := {| callee := getWeather;
              actuals := [OfJSON (JString "Paris"); OfJSON (JString "celsius")] |} in
  let ran := entryPointsToFunctionCallHandler reference_runtime
               [addTeam; getWeather] []
               {| fc_name := Some "getWeather";
                  fc_arguments := Some paris_arguments |} in
  In i (invoked ran) /\ invoked ran = [i] /\ settled ran = Fulfilled.
Proof.
  assert (Hin : In {| callee := getWeather;
                      actuals := [OfJSON (JString "Paris");
                                  OfJSON (JString "celsius")] |}
                   (invoked (entryPointsToFunctionCallHandler reference_runtime
                               [addTeam; getWeather] []
                               {| fc_name := Some "getWeather";
                                  fc_arguments := Some paris_arguments |}))).
  { left. reflexivity. }
  split; [exact Hin|].
  destruct (handler_invokes_registered_entry_point reference_runtime
              [addTeam; getWeather] [] _ _ Hin) as (H1 & _ & _ & _ & _ & H6).
  split; [exact H1 | exact H6].
Defined.

(** X16. A call of a registered name whose argument text [JSON.parse]
    rejects: the text is handed to the parser once, no implementation is
    invoked, and the promise of the handler is rejected with the syntax
    error. *)
Theorem unparsable_arguments_reject rt entryPoints ms fc ep text :
  last_entry (called_name fc) entryPoints = Some ep ->
  fc_arguments fc = Some text -> text <> EmptyString ->
  JSON_parse rt text = None ->
  entryPointsToFunctionCallHandler rt entryPoints ms fc =
  {| parses := [text]; invoked := []; settled := Rejected SyntaxError |}.
Proof.
  intros He Ha Ht Hp. unfold entryPointsToFunctionCallHandler.
  rewrite (resolve_registered _ _ _ He), Ha.
  apply String.eqb_neq in Ht. unfold truthy_string. rewrite Ht. cbn.
  now rewrite Hp.
Qed.

Lemma unparsable_arguments_reject_witness :
  reference_parse "{" = None /\
  entryPointsToFunctionCallHandler reference_runtime [getWeather] []
    {| fc_name := Some "getWeather"; fc_arguments := Some "{" |} =
  {| parses := ["{"]; invoked := []; settled := Rejected SyntaxError |}.
Proof.
  split; [reflexivity|].
  apply (unparsable_arguments_reject reference_runtime [getWeather] []
           {| fc_name := Some "getWeather"; fc_arguments := Some "{" |}
           getWeather "{").
  - reflexivity.
  - reflexivity.
  - discriminate.
  - reflexivity.
Defined.

(** X17. A call of a registered name whose argument text parses to
    [null]: when the entry point has an annotation, reading the first
    argument throws, nothing is invoked and the promise is rejected with
    a type error; when it has none, the implementation is invoked
    without arguments. *)
Theorem null_arguments rt entryPoints ms fc ep text :
  last_entry (called_name fc) entryPoints = Some ep ->
  fc_arguments fc = Some text -> text <> EmptyString ->
  JSON_parse rt text = Some JNull ->
  entryPointsToFunctionCallHandler rt entryPoints ms fc =
  match argumentAnnotations ep with
  | [] => {| parses := [text];
             invoked := [{| callee := ep; actuals := [] |}];
             settled := match implementation ep [] with
                        | Some e => Rejected e
                        | None => Fulfilled
                        end |}
  | _ :: _ => {| parses := [text]; invoked := []; settled := Rejected TypeError |}
  end.
Proof.
  intros He Ha Ht Hp. unfold entryPointsToFunctionCallHandler.
  rewrite (resolve_registered _ _ _ He), Ha.
  apply String.eqb_neq in Ht. unfold truthy_string. rewrite Ht. cbn.
  rewrite Hp. now destruct (argumentAnnotations ep).
Qed.

Lemma null_arguments_witness :
  reference_parse "null" = Some JNull /\
  entryPointsToFunctionCallHandler reference_runtime [generatePassword] []
    {| fc_name := Some "generatePassword"; fc_arguments := Some "null" |} =
  {| parses := ["null"]; invoked := []; settled := Rejected TypeError |}.
Proof.
  split; [reflexivity|].
  apply (null_arguments reference_runtime [generatePassword] []
           {| fc_name := Some "generatePassword"; fc_arguments := Some "null" |}
           generatePassword "null").
  - reflexivity.
  - reflexivity.
  - discriminate.
  - reflexivity.
Defined.

(** X18. With the handler the provider builds from its registry: a call
    whose name no registered entry point has, and which is not the name
    of a member of [Object.prototype], does nothing, provided no entry
    point is named [__proto__]: nothing is parsed, nothing is invoked,
    the promise is fulfilled. *)
Theorem unregistered_call_is_noop rt (r : EntryPoints) ms fc :
  (forall ep, In ep (own_values r) ->
              af_name ep <> called_name fc /\ af_name ep <> "__proto__") ->
  object_member (called_name fc) = false ->
  getFunctionCallHandler rt r ms fc =
  {| parses := []; invoked := []; settled := Fulfilled |}.
Proof.
  intros Hn Hm. unfold getFunctionCallHandler.
  apply dispatch_unregistered; [| |exact Hm];
    apply last_entry_none; intros ep Hin; now destruct (Hn ep Hin).
Qed.

Lemma unregistered_call_is_noop_witness :
  getFunctionCallHandler reference_runtime [("w1", getWeather)] []
    {| fc_name := Some "getForecast"; fc_arguments := Some paris_arguments |} =
  {| parses := []; invoked := []; settled := Fulfilled |}.
Proof.
  apply (unregistered_call_is_noop reference_runtime [("w1", getWeather)] []
           {| fc_name := Some "getForecast";
              fc_arguments := Some paris_arguments |}).
  - intros ep [<-|[]]. split; discriminate.
  - reflexivity.
Defined.

(** X19. When the names of the entry points are distinct, a call of one
    of them with an argument text that parses to an object invokes its
    implementation once, with one actual per annotation, in annotation
    order: the member of the object under the name of the annotation
    when there is one, and [undefined] when there is none and the name
    is not that of a member of [Object.prototype]. *)
Theorem call_passes_named_arguments rt entryPoints ms fc ep text members :
  NoDup (map af_name entryPoints) -> In ep entryPoints ->
  fc_name fc = Some (af_name ep) ->
  fc_arguments fc = Some text -> text <> EmptyString ->
  JSON_parse rt text = Some (JObject members) ->
  exists given,
    entryPointsToFunctionCallHandler rt entryPoints ms fc =
    {| parses := [text];
       invoked := [{| callee := ep; actuals := given |}];
       settled := match implementation ep given with
                  | Some e => Rejected e
                  | None => Fulfilled
                  end |} /\
    List.length given = List.length (argumentAnnotations ep) /\
    forall n arg,
      nth_error (argumentAnnotations ep) n = Some arg ->
      (forall v, own_get members (arg_name arg) = Some v ->
                 nth_error given n = Some (OfJSON v)) /\
      (own_get members (arg_name arg) = None ->
       object_member (arg_name arg) = false ->
       nth_error given n = Some Undefined).
Proof.
  intros Hnd Hin Hname Ha Ht Hp.
  exists (map (fun arg => member_of members (arg_name arg))
              (argumentAnnotations ep)).
  assert (He : last_entry (called_name fc) entryPoints = Some ep).
  { unfold called_name. rewrite Hname. now apply last_entry_unique. }
  split; [|split].
  - unfold entryPointsToFunctionCallHandler.
    rewrite (resolve_registered _ _ _ He), Ha.
    apply String.eqb_neq in Ht. unfold truthy_string. rewrite Ht. cbn.
    now rewrite Hp, params_of_object.
  - apply length_map.
  - intros n arg Hn. rewrite nth_error_map, Hn. cbn. split.
    + intros v Hv. unfold member_of. now rewrite Hv.
    + intros Hv Hm. now rewrite member_of_absent.
Qed.

Lemma call_passes_named_arguments_witness :
  exists given,
    invoked (entryPointsToFunctionCallHandler reference_runtime
               [addTeam; getWeather] []
               {| fc_name := Some "getWeather";
                  fc_arguments := Some paris_arguments |}) =
    [{| callee := getWeather; actuals := given |}] /\
    nth_error given 0 = Some (OfJSON (JString "Paris")).
Proof.
  destruct (call_passes_named_arguments reference_runtime
              [addTeam; getWeather] []
              {| fc_name := Some "getWeather";
                 fc_arguments := Some paris_arguments |}
              getWeather paris_arguments
              [("units", JString "celsius"); ("city", JString "Paris")])
    as (given & Hrun & _ & Hnth).
  - repeat constructor; simpl; intuition discriminate.
  - right. now left.
  - reflexivity.
  - reflexivity.
  - discriminate.
  - reflexivity.
  - exists given. split.
    + exact (f_equal invoked Hrun).
    + destruct (Hnth 0 (string_argument "city" true) eq_refl) as [H _].
      exact (H (JString "Paris") eq_refl).
Defined.

Lemma map_all_undefined annotations :
  forallb (fun arg => negb (array_member (arg_name arg))) annotations = true ->
  map (fun arg => member_of_empty_array (arg_name arg)) annotations =
  repeat Undefined (List.length annotations).
Proof.
  induction annotations as [|a rest IH]; simpl; [reflexivity|].
  intros H. apply andb_true_iff in H. destruct H as [Ha Hr].
  rewrite (IH Hr). f_equal.
  unfold array_member, object_member in Ha.
  apply negb_true_iff in Ha. apply orb_false_iff in Ha. destruct Ha as [Ha Ho].
  apply orb_false_iff in Ha. destruct Ha as [Hl Ha].
  apply member_of_empty_array_absent; auto. now apply String.eqb_neq.
Qed.

(** X20. When the names of the entry points are distinct, a call of one
    of them without an argument text, or with an empty one, parses
    nothing and invokes the implementation with [undefined] for every
    annotation, provided no annotation is named [length] or like a
    member of [Array.prototype] or [Object.prototype]. *)
Theorem call_without_arguments_passes_undefined rt entryPoints ms fc ep :
  NoDup (map af_name entryPoints) -> In ep entryPoints ->
  fc_name fc = Some (af_name ep) ->
  fc_arguments fc = None \/ fc_arguments fc = Some EmptyString ->
  forallb (fun arg => negb (array_member (arg_name arg)))
          (argumentAnnotations ep) = true ->
  let given := repeat Undefined (List.length (argumentAnnotations ep)) in
  entryPointsToFunctionCallHandler rt entryPoints ms fc =
  {| parses := [];
     invoked := [{| callee := ep; actuals := given |}];
     settled := match implementation ep given with
                | Some e => Rejected e
                | None => Fulfilled
                end |}.
Proof.
  intros Hnd Hin Hname Ha Hord.
  assert (He : last_entry (called_name fc) entryPoints = Some ep).
  { unfold called_name. rewrite Hname. now apply last_entry_unique. }
  unfold entryPointsToFunctionCallHandler.
  rewrite (resolve_registered _ _ _ He).
  destruct Ha as [-> | ->]; cbn;
    now rewrite params_of_empty_array, (map_all_undefined _ Hord).
Qed.

Lemma call_without_arguments_passes_undefined_witness :
  entryPointsToFunctionCallHandler reference_runtime [addTeam; getWeather] []
    {| fc_name := Some "getWeather"; fc_arguments := None |} =
  {| parses := [];
     invoked := [{| callee := getWeather; actuals := [Undefined; Undefined] |}];
     settled := Fulfilled |}.
Proof.
  apply (call_without_arguments_passes_undefined reference_runtime
           [addTeam; getWeather] []
           {| fc_name := Some "getWeather"; fc_arguments := None |} getWeather).
  - repeat constructor; simpl; intuition discriminate.
  - right. now left.
  - reflexivity.
  - now left.
  - reflexivity.
Defined.

(** ** Schema compilation *)

Lemma assign_in_order annotations : forall (o : PlainObject (Props JSON)),
  proto o = None ->
  NoDup (own_keys (own o) ++ map arg_name annotations) ->
  (forall a, In a annotations ->
             arg_name a <> "__proto__" /\ array_index (arg_name a) = None) ->
  fold_left (fun parameters arg =>
               obj_assign forwarded_has_own parameters
                 (arg_name arg) (forwardedArgs arg))
            annotations o =
  {| own := own o ++ map (fun a => (arg_name a, forwardedArgs a)) annotations;
     proto := None |}.
Proof.
  induction annotations as [|a rest IH]; intros o Hp Hnd Hn; simpl.
  - rewrite app_nil_r. destruct o. simpl in Hp. now subst.
  - destruct (Hn a (or_introl eq_refl)) as [Hne Hix].
    apply String.eqb_neq in Hne.
    assert (Hk : own_get (own o) (arg_name a) = None).
    { apply own_get_none_keys. intros Hin.
      apply NoDup_remove_2 in Hnd. apply Hnd.
      apply in_or_app. now left. }
    assert (E : obj_assign forwarded_has_own o (arg_name a) (forwardedArgs a) =
                {| own := own o ++ [(arg_name a, forwardedArgs a)];
                   proto := None |}).
    { unfold obj_assign, own_set. now rewrite Hne, Hk, Hix, Hp. }
    rewrite E, IH; cbn [own proto].
    + f_equal. rewrite <- app_assoc. reflexivity.
    + reflexivity.
    + unfold own_keys in *. rewrite map_app. simpl.
      rewrite <- app_assoc. simpl.
      apply NoDup_Add with (a := arg_name a)
                           (l := map fst (own o) ++ map arg_name rest).
      * apply Add_app.
      * split.
        -- now apply NoDup_remove_1 in Hnd.
        -- now apply NoDup_remove_2 in Hnd.
    + intros b Hb. apply Hn. now right.
Qed.

(** X21. When the annotations of a function have distinct names, none of
    them an array index or [__proto__], the [properties] of its schema
    are the annotations in annotation order, each name bound to the
    fields of the annotation other than [name] and [required], and the
    prototype of [properties] is untouched. *)
Theorem schema_properties_in_annotation_order (f : AnnotatedFunction) :
  NoDup (map arg_name (argumentAnnotations f)) ->
  (forall a, In a (argumentAnnotations f) ->
             arg_name a <> "__proto__" /\ array_index (arg_name a) = None) ->
  properties (parameters (annotatedFunctionToChatCompletionFunction f)) =
  {| own := map (fun a => (arg_name a, forwardedArgs a)) (argumentAnnotations f);
     proto := None |}.
Proof.
  intros Hnd Hn.
  exact (assign_in_order (argumentAnnotations f) empty_object eq_refl Hnd Hn).
Qed.

Lemma schema_properties_in_annotation_order_witness :
  own (properties (parameters
                     (annotatedFunctionToChatCompletionFunction addTeam))) =
  [("constructor", [("type", JString "string")]);
   ("driver", [("type", JString "string")])].
Proof.
  assert (H : properties (parameters
                            (annotatedFunctionToChatCompletionFunction addTeam)) =
              {| own := map (fun a => (arg_name a, forwardedArgs a))
                            (argumentAnnotations addTeam);
                 proto := None |}).
  { apply schema_properties_in_annotation_order.
    - repeat constructor; simpl; intuition discriminate.
    - intros a [<-|[<-|[]]]; split; (discriminate || reflexivity). }
  exact (f_equal own H).
Defined.

(** ** The context string and the configuration *)

(** X22. [getContextString] puts the documents first, in order, each as
    its name, its source application in brackets, a colon, a line break
    and its contents, with a blank line between two documents, then a
    blank line and the printed tree.  Without documents the string is
    the blank line followed by the printed tree. *)
Theorem getContextString_layout printTree document documents categories :
  getContextString printTree [] categories =
    (newline ++ newline ++ printTree categories)%string /\
  getContextString printTree [document] categories =
    (document_entry document ++ newline ++ newline
     ++ printTree categories)%string /\
  (documents <> [] ->
   getContextString printTree (document :: documents) categories =
     (document_entry document ++ newline ++ newline
      ++ getContextString printTree documents categories)%string).
Proof.
  unfold getContextString. repeat split.
  intros Hne. destruct documents as [|d ds]; [congruence|].
  cbn [map String.concat]. now rewrite !append_assoc.
Qed.

(** X23. With an endpoint in the props, the configuration is the standard
    one over that endpoint, empty headers and an empty body; its second
    endpoint is the one given when that is a non-empty string, and the
    first endpoint followed by [/v2] when it is missing or empty, so it
    is never empty.  A ready configuration is passed through. *)
Theorem copilotApiConfig_second_endpoint
    {Config : Type}
    (standard : string -> string -> Props JSON -> Props JSON -> Config)
    (endpoint : string) (second : option string) (ready : Config) :
  copilotApiConfig standard (ConfigProps ready) = ready /\
  exists v2,
    copilotApiConfig standard (EndpointProps endpoint second) =
      standard endpoint v2 [] [] /\
    v2 <> EmptyString /\
    (forall given, second = Some given -> given <> EmptyString -> v2 = given) /\
    (second = None \/ second = Some EmptyString ->
     v2 = (endpoint ++ "/v2")%string).
Proof.
  split; [reflexivity|].
  exists (string_or second (endpoint ++ "/v2")). split; [reflexivity|].
  assert (Hd : (endpoint ++ "/v2")%string <> EmptyString).
  { destruct endpoint; discriminate. }
  repeat split.
  - unfold string_or. destruct second as [x|]; [|exact Hd].
    destruct (truthy_string x) eqn:E; [|exact Hd].
    unfold truthy_string in E. apply negb_true_iff in E.
    now apply String.eqb_neq in E.
  - intros given -> Hg. unfold string_or, truthy_string.
    apply String.eqb_neq in Hg. now rewrite Hg.
  - intros [-> | ->]; reflexivity.
Qed.

(** ** The chat hook *)

Lemma registered_object_call rt entryPoints ms fc ep text members :
  last_entry (called_name fc) entryPoints = Some ep ->
  fc_arguments fc = Some text -> text <> EmptyString ->
  JSON_parse rt text = Some (JObject members) ->
  let given := map (fun arg => member_of members (arg_name arg))
                   (argumentAnnotations ep) in
  entryPointsToFunctionCallHandler rt entryPoints ms fc =
  {| parses := [text];
     invoked := [{| callee := ep; actuals := given |}];
     settled := match implementation ep given with
                | Some e => Rejected e
                | None => Fulfilled
                end |}.
Proof.
  intros He Ha Ht Hp. unfold entryPointsToFunctionCallHandler.
  rewrite (resolve_registered _ _ _ He), Ha.
  apply String.eqb_neq in Ht. unfold truthy_string. rewrite Ht. cbn.
  now rewrite Hp, params_of_object.
Qed.

Section UseChatFurther.

Variable rt : Runtime.
Variable options : UseChatOptions.




(** X1. [stop] with no cycle in flight changes nothing and settles
    nothing; and in every state a second [stop] right after a first one
    changes nothing and settles nothing. *)
Theorem stop_without_cycle_changes_nothing s :
  reachable rt options s ->
  (isLoading s = false -> stop options s = (s, None)) /\
  stop options (fst (stop options s)) = (fst (stop options s), None).
Proof.
  intros Hr. split.
  - intros Hl. pose proof (reachable_well_formed rt options s Hr) as (_ & _ & Hc).
    unfold stop. destruct (abortControllerRef s) as [k|]; [|reflexivity].
    destruct Hc as [Hc _]. congruence.
  - unfold stop at 2 3.
    destruct (abortControllerRef s) as [k|] eqn:Ek.
    + destruct (cycle_of k s) as [c|]; reflexivity.
    + simpl. unfold stop. now rewrite Ek.
Qed.

(** X2. In every state the hook can reach, whichever renders the calls
    were made from: the in-flight flag is set exactly while the
    controller ref is set; the controller in the ref is the last one
    created, and the listeners of its cycle are attached; the attached
    cycles have controllers of their own, and their assistant messages
    have the role [assistant] and no function call. *)
Theorem flag_tracks_controller_ref s :
  reachable rt options s ->
  (isLoading s = true <-> exists k, abortControllerRef s = Some k) /\
  (forall k, abortControllerRef s = Some k ->
     S k = created s /\ exists c, cycle_of k s = Some c) /\
  NoDup (map abortController (listening s)) /\
  (forall c, In c (listening s) ->
     abortController c < created s /\
     role (assistantMessage c) = assistant /\
     function_call (assistantMessage c) = None).
Proof.
  intros Hr. pose proof (reachable_well_formed rt options s Hr)
    as (Hnd & Hall & Href).
  destruct (abortControllerRef s) as [k|].
  - destruct Href as (Hl & Hk & Hc).
    split; [split; [intros _; eauto | intros _; exact Hl]|].
    split; [|split; assumption].
    intros k' [= <-]. auto.
  - split; [split; [congruence | intros [k Hk]; discriminate]|].
    split; [|split; assumption].
    intros k' [=].
Qed.


Lemma cycle_eta c :
  {| cycle_messages := cycle_messages c;
     assistantMessage := assistantMessage c;
     abortController := abortController c |} = c.
Proof. now destruct c. Qed.

Lemma content_prefix_run frames : forall c s,
  cycle_of (abortController c) s = Some c ->
  let reply := with_content (assistantMessage c)
                 (content (assistantMessage c) ++ concatenation frames) in
  exists s',
    deliver_all rt options (abortController c) (map ContentEvent frames) s
    = (s', None) /\
    cycle_of (abortController c) s' =
      Some {| cycle_messages := cycle_messages c;
              assistantMessage := reply;
              abortController := abortController c |} /\
    (frames <> [] -> messages s' = cycle_messages c ++ [reply]) /\
    (frames = [] -> s' = s) /\
    isLoading s' = isLoading s /\
    abortControllerRef s' = abortControllerRef s /\
    fetched s' = fetched s /\
    created s' = created s.
Proof.
  induction frames as [|f rest IH]; intros c s Hl; cbn [map deliver_all concatenation fold_right].
  - exists s. rewrite append_empty_r, with_content_same, cycle_eta.
    repeat split; auto. congruence.
  - unfold deliver at 1. rewrite Hl. cbn [on_event].
    match goal with
    | |- context [set_listening ?c1 ?s1] =>
        destruct (IH c1 (set_listening c1 s1)) as (s' & Hrun & Hc & Hm & He & H)
    end.
    { cbn [abortController].
      rewrite cycle_of_set_listening, cycle_of_setMessages, Hl.
      cbn. unfold attached. cbn. now rewrite Nat.eqb_refl. }
    cbn [abortController cycle_messages assistantMessage] in *.
    exists s'. rewrite Hrun.
    assert (Hreply :
              with_content
                (with_content (assistantMessage c)
                   (content (assistantMessage c) ++ f))
                (content
                   (with_content (assistantMessage c)
                      (content (assistantMessage c) ++ f))
                 ++ concatenation rest) =
              with_content (assistantMessage c)
                (content (assistantMessage c) ++ f ++ concatenation rest)).
    { unfold with_content. cbn. now rewrite append_assoc. }
    rewrite Hreply in Hc, Hm.
    split; [reflexivity|]. split; [exact Hc|]. split; [|split; [discriminate|exact H]].
    intros _. destruct rest as [|g rest'].
    + rewrite (He eq_refl). cbn. now rewrite append_empty_r.
    + apply Hm. discriminate.
Qed.

(** X4. A run of content frames of a client whose listeners are attached
    settles nothing and keeps them attached: the assistant message of
    the cycle has grown by the payloads in arrival order, with its id,
    creation time and role as before; when there is a frame the
    published list is the messages the cycle was started over followed
    by that message; the flag, the controller ref and the requests are
    as before. *)
Theorem content_frames_accumulate frames s c :
  cycle_of (abortController c) s = Some c ->
  let reply := with_content (assistantMessage c)
                 (content (assistantMessage c) ++ concatenation frames) in
  let after := deliver_all rt options (abortController c)
                 (map ContentEvent frames) s in
  snd after = None /\
  cycle_of (abortController c) (fst after) =
    Some {| cycle_messages := cycle_messages c;
            assistantMessage := reply;
            abortController := abortController c |} /\
  (frames <> [] -> messages (fst after) = cycle_messages c ++ [reply]) /\
  (frames = [] -> fst after = s) /\
  id reply = id (assistantMessage c) /\
  createdAt reply = createdAt (assistantMessage c) /\
  role reply = role (assistantMessage c) /\
  isLoading (fst after) = isLoading s /\
  abortControllerRef (fst after) = abortControllerRef s /\
  fetched (fst after) = fetched s.
Proof.
  intros Hl. cbv zeta.
  destruct (content_prefix_run frames c s Hl)
    as (s' & -> & Hc & Hm & He & Hload & Href & Hf & _).
  cbn [fst snd]. repeat split; auto.
Qed.

(** X5. In a reachable state, the end event of a client whose listeners
    are attached resolves its cycle with the assistant message as it
    stands, leaves the published list as it is, clears the flag and the
    controller ref and detaches the listeners; the function-call handler
    is not called, whether one is configured or not, and the promise of
    the turn is fulfilled. *)
Theorem end_event_skips_handler s c :
  reachable rt options s -> cycle_of (abortController c) s = Some c ->
  let after := deliver rt options (abortController c) EndEvent s in
  snd after =
    Some {| cycle_outcome := CycleResolved (assistantMessage c);
            turn := {| parses := []; invoked := []; settled := Fulfilled |} |} /\
  messages (fst after) = messages s /\
  isLoading (fst after) = false /\
  cycle_of (abortController c) (fst after) = None /\
  abortControllerRef (fst after) = None.
Proof.
  intros Hr Hl. pose proof (reachable_well_formed rt options s Hr) as (_ & Hall & _).
  destruct (cycle_of_in _ _ _ Hl) as [Hin _].
  destruct (Hall c Hin) as (_ & _ & Hfc).
  unfold deliver. rewrite Hl. cbn [on_event fst snd].
  unfold complete, handleFunctionCall. rewrite Hfc.
  repeat split. rewrite cycle_of_cleanup. now rewrite Nat.eqb_refl.
Qed.

(** X6. An error event of a client whose listeners are attached rejects
    the promise of its cycle and of the turn with the error it carries,
    without calling the function-call handler; the published list stays
    as it is, the flag is cleared and the listeners are detached; and
    [append] through the closures of a render of the state after the
    error starts a cycle over the published list and the appended
    message. *)
Theorem error_event_rejects s c e :
  cycle_of (abortController c) s = Some c ->
  let after := deliver rt options (abortController c) (ErrorEvent e) s in
  snd after =
    Some {| cycle_outcome := CycleRejected e;
            turn := {| parses := []; invoked := []; settled := Rejected e |} |} /\
  messages (fst after) = messages s /\
  isLoading (fst after) = false /\
  cycle_of (abortController c) (fst after) = None /\
  forall env message,
    let again := append options (render (fst after)) env message (fst after) in
    snd again = Pending /\
    cycle_of (created s) (fst again) =
      Some {| cycle_messages := messages s ++ [message];
              assistantMessage := blank_assistant env;
              abortController := created s |} /\
    messages (fst again) = messages s ++ [message; blank_assistant env].
Proof.
  intros Hl. unfold deliver. rewrite Hl. cbn [on_event fst snd].
  repeat split.
  - rewrite cycle_of_cleanup. now rewrite Nat.eqb_refl.
  - unfold cycle_of, attached. cbn. now rewrite Nat.eqb_refl.
  - cbn. now rewrite <- app_assoc.
Qed.

(** X7. [stop] keeps what was generated.  In a reachable state with the
    flag set the ref holds the controller of an attached cycle; when
    that cycle was the last to publish, [stop] followed by [append]
    through the closures of a render of the state after the stop starts
    a cycle over the messages of the stopped cycle, its assistant
    message as far as it had come, and the appended message, and the
    request carries the initial messages followed by these. *)
Theorem stop_keeps_generated_tokens s env message :
  reachable rt options s -> isLoading s = true ->
  exists c,
    abortControllerRef s = Some (abortController c) /\
    cycle_of (abortController c) s = Some c /\
    (messages s = cycle_messages c ++ [assistantMessage c] ->
     let stopped := fst (stop options s) in
     let again := append options (render stopped) env message stopped in
     let carried := cycle_messages c ++ [assistantMessage c] ++ [message] in
     snd again = Pending /\
     messages (fst again) = carried ++ [blank_assistant env] /\
     fetched (fst again) = fetched s ++ [request_of options carried (created s)]).
Proof.
  intros Hr Hload.
  pose proof (reachable_well_formed rt options s Hr) as (_ & _ & Href).
  destruct (abortControllerRef s) as [k|] eqn:Ek; [|congruence].
  destruct Href as (_ & _ & c & Hc).
  destruct (cycle_of_in _ _ _ Hc) as [_ Hk]. subst k.
  exists c. split; [reflexivity|]. split; [exact Hc|].
  intros Hm. unfold stop. rewrite Ek, Hc. cbn [on_abort fst].
  unfold append. cbn. unfold request_of. rewrite Hm, <- !app_assoc.
  repeat split.
Qed.

Lemma reload_snoc r env s history lastMessage :
  rendered_isLoading r = false ->
  rendered_messages r = history ++ [lastMessage] ->
  reload options r env s =
  (runChatCompletion options env
     (if role_eqb (role lastMessage) assistant
      then history else history ++ [lastMessage])
     s,
   Pending).
Proof.
  intros Hl Hm. unfold reload. rewrite Hl, Hm.
  rewrite last_length. cbn [orb Nat.eqb].
  rewrite <- (last_length history lastMessage).
  rewrite last_of_snoc, firstn_of_snoc.
  now destruct (role_eqb (role lastMessage) assistant).
Qed.



(** X10. With the handler the provider builds from a registry of
    distinctly named entry points as [onFunctionCall], and a runtime
    that parses the text it wrote for the arguments back to them: a
    function-call event naming a registered entry point, with an object
    as arguments, makes the turn invoke the implementation of that entry
    point once, with the members of the object under the annotation
    names, in annotation order; the promise of the turn settles as the
    implementation does. *)
Theorem streamed_call_reaches_implementation s c (r : EntryPoints) ep members :
  cycle_of (abortController c) s = Some c ->
  onFunctionCall options = Some (getFunctionCallHandler rt r) ->
  NoDup (map af_name (own_values r)) -> In ep (own_values r) ->
  JSON_stringify rt (JObject members) <> EmptyString ->
  JSON_parse rt (JSON_stringify rt (JObject members)) = Some (JObject members) ->
  let after := deliver rt options (abortController c)
                 (FunctionEvent (af_name ep) (JObject members)) s in
  let given := map (fun arg => member_of members (arg_name arg))
                   (argumentAnnotations ep) in
  option_map (fun d => invoked (turn d)) (snd after) =
    Some [{| callee := ep; actuals := given |}] /\
  option_map (fun d => settled (turn d)) (snd after) =
    Some (match implementation ep given with
          | Some e => Rejected e
          | None => Fulfilled
          end).
Proof.
  intros Hl Hh Hnd Hin Hne Hp.
  unfold deliver. rewrite Hl. cbn [on_event snd option_map].
  unfold complete. cbn [turn handleFunctionCall with_function_call function_call].
  rewrite Hh. unfold getFunctionCallHandler.
  rewrite (registered_object_call rt (own_values r) (cycle_messages c)
             {| fc_name := Some (af_name ep);
                fc_arguments := Some (JSON_stringify rt (JObject members)) |}
             ep (JSON_stringify rt (JObject members)) members);
    cbn [fc_arguments called_name fc_name].
  - split; reflexivity.
  - now apply last_entry_unique.
  - reflexivity.
  - exact Hne.
  - exact Hp.
Qed.

(** X24. [stop] aborts the cycle started last.  In a reachable state
    with the flag set, the ref holds the controller of an attached
    cycle, the last controller created; [stop] rejects the promise of
    that cycle and of its turn with the abort error, without calling the
    function-call handler; the published list stays as it is, the flag
    and the ref are cleared, the other attached cycles stay attached,
    and whatever calls and events follow, an event of the aborted client
    changes nothing and settles nothing. *)
Theorem stop_aborts_latest_cycle s :
  reachable rt options s -> isLoading s = true ->
  exists c,
    abortControllerRef s = Some (abortController c) /\
    cycle_of (abortController c) s = Some c /\
    S (abortController c) = created s /\
    let after := stop options s in
    snd after =
      Some {| cycle_outcome := CycleRejected AbortError;
              turn := {| parses := []; invoked := [];
                         settled := Rejected AbortError |} |} /\
    messages (fst after) = messages s /\
    isLoading (fst after) = false /\
    abortControllerRef (fst after) = None /\
    listening (fst after) = detach (abortController c) (listening s) /\
    (forall k, k <> abortController c ->
       cycle_of k (fst after) = cycle_of k s) /\
    forall actions ev,
      deliver rt options (abortController c) ev
        (run rt options actions (fst after)) =
      (run rt options actions (fst after), None).
Proof.
  intros Hr Hload.
  pose proof (reachable_well_formed rt options s Hr) as (_ & _ & Href).
  destruct (abortControllerRef s) as [k|] eqn:Ek; [|congruence].
  destruct Href as (_ & Hk & c & Hc).
  destruct (cycle_of_in _ _ _ Hc) as [_ Hkc]. subst k.
  exists c. split; [reflexivity|]. split; [exact Hc|]. split; [exact Hk|].
  unfold stop. rewrite Ek, Hc. cbn [on_abort fst snd].
  repeat split.
  - intros k Hne. rewrite cycle_of_cleanup, cycle_of_setIsLoading.
    destruct (Nat.eqb_spec k (abortController c)); [contradiction|reflexivity].
  - intros actions ev. apply deliver_ended, run_ended. split.
    + cbn. lia.
    + rewrite cycle_of_cleanup. now rewrite Nat.eqb_refl.
Qed.

(** X25. [reload] through the closures of a render: a render that saw a
    cycle in flight, or no message, makes it return at once without
    touching the state; otherwise it starts a cycle over the messages of
    that render without the last one when that is an assistant message,
    and over all of them when it is not, publishes these messages and a
    blank assistant message, sets the flag and makes one more request,
    over the initial messages followed by these. *)
Theorem reload_by_render r env s :
  (rendered_isLoading r = true -> reload options r env s = (s, ReturnedEarly)) /\
  (rendered_messages r = [] -> reload options r env s = (s, ReturnedEarly)) /\
  forall history lastMessage,
    rendered_isLoading r = false ->
    rendered_messages r = history ++ [lastMessage] ->
    let kept := if role_eqb (role lastMessage) assistant
                then history else history ++ [lastMessage] in
    let after := reload options r env s in
    snd after = Pending /\
    messages (fst after) = kept ++ [blank_assistant env] /\
    isLoading (fst after) = true /\
    abortControllerRef (fst after) = Some (created s) /\
    cycle_of (created s) (fst after) =
      Some {| cycle_messages := kept;
              assistantMessage := blank_assistant env;
              abortController := created s |} /\
    fetched (fst after) = fetched s ++ [request_of options kept (created s)].
Proof.
  split; [|split].
  - intros H. unfold reload. now rewrite H.
  - intros H. unfold reload. rewrite H. cbn. now rewrite Bool.orb_true_r.
  - intros history lastMessage Hl Hm. cbv zeta.
    rewrite (reload_snoc r env s history lastMessage Hl Hm).
    cbn [fst snd runChatCompletion messages isLoading abortControllerRef fetched].
    repeat split.
    unfold cycle_of, attached. cbn. now rewrite Nat.eqb_refl.
Qed.

Lemma step_single_flight_start env ms s :
  single_flight s -> isLoading s = false ->
  single_flight (runChatCompletion options env ms (setMessages ms s)).
Proof.
  unfold single_flight. intros H Hl.
  destruct (listening s) as [|c [|c' rest]] eqn:E.
  - unfold runChatCompletion. cbn. rewrite E. repeat split.
  - destruct H as [H _]. congruence.
  - contradiction.
Qed.

Lemma single_flight_rendered s :
  reachable_rendered rt options s -> single_flight s.
Proof.
  induction 1 as [|env message s _ IH|env s _ IH|s _ IH|client ev s _ IH].
  - split; reflexivity.
  - unfold append, render. cbn [rendered_isLoading rendered_messages].
    destruct (isLoading s) eqn:El; [exact IH|].
    cbn [fst].
    exact (step_single_flight_start env _ s IH El).
  - unfold reload, render. cbn [rendered_isLoading rendered_messages].
    destruct (isLoading s) eqn:El; [exact IH|].
    cbn [orb].
    destruct (List.length (messages s) =? 0)%nat; [exact IH|].
    cbn [fst].
    exact (step_single_flight_start env _ s IH El).
  - unfold stop, single_flight in *.
    destruct (listening s) as [|c [|c' rest]] eqn:E; [| |contradiction].
    + destruct IH as [Hl Hr]. rewrite Hr. cbn [fst]. rewrite E. now split.
    + destruct IH as (Hl & Hr & Hm). rewrite Hr.
      unfold cycle_of. rewrite E. cbn [find]. unfold attached at 1.
      rewrite Nat.eqb_refl. cbn [on_abort fst cleanup listening setIsLoading
                                   isLoading abortControllerRef].
      rewrite E. cbn [detach filter]. unfold attached. rewrite Nat.eqb_refl.
      cbn. now split.
  - unfold deliver.
    destruct (cycle_of client s) as [c|] eqn:Ec; [|exact IH].
    destruct (cycle_of_in _ _ _ Ec) as [Hin _].
    unfold single_flight in *.
    destruct (listening s) as [|c0 [|c' rest]] eqn:E;
      [destruct Hin| |contradiction].
    destruct Hin as [->|[]]. destruct IH as (Hl & Hr & Hm).
    assert (Hdet : detach (abortController c) [c] = []).
    { cbn. unfold attached. now rewrite Nat.eqb_refl. }
    destruct ev as [text|fname arguments| |error];
      cbn [on_event fst cleanup listening setIsLoading setMessages
             set_listening isLoading abortControllerRef messages];
      rewrite E; try (rewrite Hdet; now split).
    cbn [map abortController]. unfold attached. rewrite Nat.eqb_refl.
    cbn [abortController cycle_messages assistantMessage].
    repeat split; assumption.
Qed.

(** X26. Single flight between renders.  When every call of [append] and
    [reload] is made through the closures of a render of the state it
    meets, at most one cycle is attached at any time: with none, the
    flag and the ref are clear; with one, the flag is set, the ref holds
    its controller and the published list is the messages the cycle was
    started over followed by its assistant message.  While the flag is
    set, such a call of [append] or [reload] returns at once and leaves
    the state as it is. *)
Theorem rendered_calls_are_single_flight s :
  reachable_rendered rt options s ->
  single_flight s /\
  List.length (listening s) <= 1 /\
  (isLoading s = true ->
   forall env message,
     append options (render s) env message s = (s, ReturnedEarly) /\
     reload options (render s) env s = (s, ReturnedEarly)).
Proof.
  intros Hr. pose proof (single_flight_rendered s Hr) as Hs.
  split; [exact Hs|]. split.
  - unfold single_flight in Hs.
    destruct (listening s) as [|c [|c' rest]]; cbn; [lia|lia|contradiction].
  - intros Hl env message. unfold append, reload, render.
    cbn [rendered_isLoading]. rewrite Hl. split; reflexivity.
Qed.

End UseChatFurther.

(** ** Instances of the further properties *)

Lemma stop_without_cycle_changes_nothing_witness :
  isLoading initial = false /\ stop no_options initial = (initial, None).
Proof.
  split; [reflexivity|].
  destruct (stop_without_cycle_changes_nothing reference_runtime no_options
              initial (reachable_initial _ _)) as [H _].
  exact (H eq_refl).
Defined.

Lemma flag_tracks_controller_ref_witness :
  let streaming :=
    step reference_runtime no_options (DoAppend (render initial) fresh1 hi)
      initial in
  isLoading streaming = true /\
  exists k, abortControllerRef streaming = Some k.
Proof.
  split; [reflexivity|].
  destruct (flag_tracks_controller_ref reference_runtime no_options
              (step reference_runtime no_options
                 (DoAppend (render initial) fresh1 hi) initial)
              (reachable_step _ _ (DoAppend (render initial) fresh1 hi) _
                 (reachable_initial _ _)))
    as [[H _] _].
  exact (H eq_refl).
Defined.


Lemma content_frames_accumulate_witness :
  let streaming :=
    step reference_runtime no_options (DoAppend (render initial) fresh1 hi)
      initial in
  let after := deliver_all reference_runtime no_options 0
                 [ContentEvent "He"; ContentEvent "llo"] streaming in
  messages (fst after) = [hi; with_content (blank_assistant fresh1) "Hello"] /\
  isLoading (fst after) = true.
Proof.
  destruct (content_frames_accumulate reference_runtime no_options
              ["He"; "llo"]
              (step reference_runtime no_options
                 (DoAppend (render initial) fresh1 hi) initial)
              {| cycle_messages := [hi];
                 assistantMessage := blank_assistant fresh1;
                 abortController := 0 |}
              eq_refl)
    as (_ & _ & H1 & _ & _ & _ & _ & H2 & _).
  split; [apply H1; discriminate | exact H2].
Defined.

Lemma end_event_skips_handler_witness :
  let streaming :=
    step reference_runtime dispatching_options
      (DoAppend (render initial) fresh1 hi) initial in
  option_map turn (snd (deliver reference_runtime dispatching_options 0
                          EndEvent streaming)) =
  Some {| parses := []; invoked := []; settled := Fulfilled |}.
Proof.
  destruct (end_event_skips_handler reference_runtime dispatching_options
              (step reference_runtime dispatching_options
                 (DoAppend (render initial) fresh1 hi) initial)
              {| cycle_messages := [hi];
                 assistantMessage := blank_assistant fresh1;
                 abortController := 0 |}
              (reachable_step _ _ (DoAppend (render initial) fresh1 hi) _
                 (reachable_initial _ _))
              eq_refl)
    as (H & _).
  exact (f_equal (option_map turn) H).
Defined.

Lemma error_event_rejects_witness :
  let streaming :=
    step reference_runtime no_options (DoAppend (render initial) fresh1 hi)
      initial in
  let after := deliver reference_runtime no_options 0
                 (ErrorEvent (Thrown "offline")) streaming in
  option_map (fun d => settled (turn d)) (snd after) =
    Some (Rejected (Thrown "offline")) /\
  messages (fst after) = [hi; blank_assistant fresh1] /\
  snd (append no_options (render (fst after)) fresh2 again (fst after)) = Pending.
Proof.
  destruct (error_event_rejects reference_runtime no_options
              (step reference_runtime no_options
                 (DoAppend (render initial) fresh1 hi) initial)
              {| cycle_messages := [hi];
                 assistantMessage := blank_assistant fresh1;
                 abortController := 0 |}
              (Thrown "offline")
              eq_refl)
    as (H1 & H2 & _ & _ & H5).
  split; [exact (f_equal (option_map (fun d => settled (turn d))) H1)|].
  split; [exact H2|].
  exact (proj1 (H5 fresh2 again)).
Defined.

Lemma stop_keeps_generated_tokens_witness :
  let streaming :=
    run reference_runtime no_options
      [DoAppend (render initial) fresh1 hi; DoDeliver 0 (ContentEvent "He")]
      initial in
  let stopped := fst (stop no_options streaming) in
  isLoading streaming = true /\
  messages (fst (append no_options (render stopped) fresh2 again stopped)) =
  [hi; with_content (blank_assistant fresh1) "He"; again;
   blank_assistant fresh2].
Proof.
  split; [reflexivity|].
  destruct (stop_keeps_generated_tokens reference_runtime no_options
              (run reference_runtime no_options
                 [DoAppend (render initial) fresh1 hi;
                  DoDeliver 0 (ContentEvent "He")] initial)
              fresh2 again
              (reachable_step _ _ (DoDeliver 0 (ContentEvent "He")) _
                 (reachable_step _ _ (DoAppend (render initial) fresh1 hi) _
                    (reachable_initial _ _)))
              eq_refl)
    as (c & Href & Hc & H).
  change (Some 0 = Some (abortController c)) in Href.
  injection Href as E. rewrite <- E in Hc.
  change (Some {| cycle_messages := [hi];
                  assistantMessage :=
                    with_content (blank_assistant fresh1) "He";
                  abortController := 0 |} = Some c) in Hc.
  injection Hc as Ec. rewrite <- Ec in H.
  exact (proj1 (proj2 (H eq_refl))).
Defined.



Lemma streamed_call_reaches_implementation_witness :
  let streaming :=
    step reference_runtime dispatching_options
      (DoAppend (render initial) fresh1 hi) initial in
  let after :=
    deliver reference_runtime dispatching_options 0
      (FunctionEvent "getWeather"
         (JObject [("units", JString "celsius"); ("city", JString "Paris")]))
      streaming in
  option_map (fun d => invoked (turn d)) (snd after) =
  Some [{| callee := getWeather;
           actuals := [OfJSON (JString "Paris"); OfJSON (JString "celsius")] |}].
Proof.
  destruct (streamed_call_reaches_implementation reference_runtime
              dispatching_options
              (step reference_runtime dispatching_options
                 (DoAppend (render initial) fresh1 hi) initial)
              {| cycle_messages := [hi];
                 assistantMessage := blank_assistant fresh1;
                 abortController := 0 |}
              [("w1", getWeather)] getWeather
              [("units", JString "celsius"); ("city", JString "Paris")])
    as [H _].
  - reflexivity.
  - reflexivity.
  - repeat constructor; simpl; intuition.
  - now left.
  - vm_compute. discriminate.
  - reflexivity.
  - exact H.
Defined.

Lemma stop_aborts_latest_cycle_witness :
  let both :=
    run reference_runtime no_options
      [DoAppend (render initial) fresh1 hi;
       DoAppend (render initial) fresh2 again] initial in
  isLoading both = true /\
  exists c,
    abortControllerRef both = Some (abortController c) /\
    S (abortController c) = 2 /\
    option_map cycle_outcome (snd (stop no_options both)) =
    Some (CycleRejected AbortError).
Proof.
  split; [reflexivity|].
  destruct (stop_aborts_latest_cycle reference_runtime no_options
              (run reference_runtime no_options
                 [DoAppend (render initial) fresh1 hi;
                  DoAppend (render initial) fresh2 again] initial)
              (reachable_step _ _ (DoAppend (render initial) fresh2 again) _
                 (reachable_step _ _ (DoAppend (render initial) fresh1 hi) _
                    (reachable_initial _ _)))
              eq_refl)
    as (c & Href & _ & Hk & H & _).
  exists c. split; [exact Href|]. split; [exact Hk|].
  exact (f_equal (option_map cycle_outcome) H).
Defined.

Lemma rendered_calls_are_single_flight_witness :
  let streaming :=
    fst (append no_options (render initial) fresh1 hi initial) in
  isLoading streaming = true /\
  append no_options (render streaming) fresh2 again streaming =
  (streaming, ReturnedEarly).
Proof.
  split; [reflexivity|].
  destruct (rendered_calls_are_single_flight reference_runtime no_options
              (fst (append no_options (render initial) fresh1 hi initial))
              (rendered_append _ _ fresh1 hi _ (rendered_initial _ _)))
    as (_ & _ & H).
  exact (proj1 (H eq_refl fresh2 again)).
Defined.
